(** * eslint-plugin-graphql-naming: the naming-convention engine

    A shallow embedding of [src/utils/path-utils.ts] and
    [src/utils/naming-utils.ts], and the properties of the specification
    that concern them.

    Modelling choices.
    - A JavaScript string is a sequence of UTF-16 code units.  Module [JS]
      reads the strings of ASCII code units as [string]s, with the case
      mappings and the regular-expression classes [\w], [\s] and [.] that
      JavaScript has on them; the statements that rest on the case mapping
      of a whole name are stated for such strings.  Module [CodeUnits]
      reads [toPascalCase] on every string, as a [list N] of code units,
      with [\s], [\w] and [.] as ECMAScript defines them and with the table
      of [String.prototype.toUpperCase] as a parameter: the upper case of a
      code unit may be a different code unit or several of them.  The two
      readings are one on ASCII strings ([units_toPascalCase]).
    - [path] is Node's POSIX flavour: [path.sep] is the slash.
    - An array of strings is a [list string]; the object returned by
      [getFields()] is a [gmap string GraphQLField].
    - A type reference is read twice: as a finite tree, which is what the
      constructors of a schema build, and as a reference into a store of
      objects, where a chain of [ofType] steps need not end.
    - A property read on [undefined] raises a [TypeError]; the functions of
      [naming-utils.ts] that read properties run in the [completion] monad,
      so that "does not throw" is a statement about their result. *)

From Stdlib Require Import Ascii String List Bool Arith NArith Lia.
From stdpp Require Import gmap strings.

(** ** JavaScript built-ins used by the sources *)

Module JS.

Definition code (c : ascii) : N := N_of_ascii c.

Definition between (lo hi : N) (c : ascii) : bool :=
  ((lo <=? code c) && (code c <=? hi))%N.

Definition isLower (c : ascii) : bool := between 97 122 c.
Definition isUpper (c : ascii) : bool := between 65 90 c.
Definition isDigit (c : ascii) : bool := between 48 57 c.

(** [\w]: letters, digits and the underscore. *)
Definition isWord (c : ascii) : bool :=
  isLower c || isUpper c || isDigit c || (c =? "_")%char.

(** [\s]: tab, line feed, vertical tab, form feed, carriage return, space. *)
Definition isSpace (c : ascii) : bool :=
  between 9 13 c || (c =? " ")%char.

(** [.] matches every code unit that is not a line terminator. *)
Definition isLineTerminator (c : ascii) : bool :=
  (code c =? 10)%N || (code c =? 13)%N.

Definition isBracket (c : ascii) : bool := (c =? "[")%char || (c =? "]")%char.

Definition isHyphenOrUnderscore (c : ascii) : bool :=
  (c =? "-")%char || (c =? "_")%char.

Definition upperChar (c : ascii) : ascii :=
  if isLower c then ascii_of_N (code c - 32) else c.

Definition lowerChar (c : ascii) : ascii :=
  if isUpper c then ascii_of_N (code c + 32) else c.

Fixpoint mapChars (f : ascii -> ascii) (s : string) : string :=
  match s with
  | EmptyString => EmptyString
  | String c r => String (f c) (mapChars f r)
  end.

(** [s.replace(/[class]/g, '')] *)
Fixpoint removeChars (p : ascii -> bool) (s : string) : string :=
  match s with
  | EmptyString => EmptyString
  | String c r => if p c then removeChars p r else String c (removeChars p r)
  end.

Definition toUpperCase : string -> string := mapChars upperChar.
Definition toLowerCase : string -> string := mapChars lowerChar.

(** [s.startsWith(p)] *)
Fixpoint startsWith (s p : string) : bool :=
  match p, s with
  | EmptyString, _ => true
  | String _ _, EmptyString => false
  | String a p', String b s' => (a =? b)%char && startsWith s' p'
  end.

(** [s.includes(sub)]: [sub] occurs at some index of [s]. *)
Fixpoint includes (s sub : string) : bool :=
  startsWith s sub
  || match s with
     | EmptyString => false
     | String _ r => includes r sub
     end.

(** [s.split(sep)] for a separator of one code unit: never an empty array. *)
Fixpoint split (sep : ascii) (s : string) : list string :=
  match s with
  | EmptyString => [EmptyString]
  | String c r =>
      if (c =? sep)%char then EmptyString :: split sep r
      else match split sep r with
           | h :: t => String c h :: t
           | [] => [String c EmptyString]
           end
  end.

(** [pieces.join(sep)] *)
Fixpoint join (sep : string) (pieces : list string) : string :=
  match pieces with
  | [] => EmptyString
  | [p] => p
  | p :: rest => p +:+ sep +:+ join sep rest
  end.

(** [arr.includes(x)] on an array of strings (strict equality). *)
Definition arrayIncludes (arr : list string) (x : string) : bool :=
  existsb (String.eqb x) arr.

(** A string is truthy when it is not empty. *)
Definition truthy (s : string) : bool := negb (s =? "")%string.

(** [s.charAt(0)] and [s.slice(1)] *)
Definition charAt0 (s : string) : string :=
  match s with
  | EmptyString => EmptyString
  | String c _ => String c EmptyString
  end.

Definition slice1 (s : string) : string :=
  match s with
  | EmptyString => EmptyString
  | String _ r => r
  end.

(** [s.replace(/(a1|a2|...)$/, '')] for non-empty literal alternatives:
    the match starts at the leftmost index from which one of the
    alternatives reaches the end of the input. *)
Fixpoint removeAtEnd (alts : list string) (s : string) : string :=
  if existsb (String.eqb s) alts then EmptyString
  else match s with
       | EmptyString => EmptyString
       | String c r => String c (removeAtEnd alts r)
       end.

(** [s.replace(/^./, f)] with [f] mapping one code unit to one code unit. *)
Definition replaceFirstChar (f : ascii -> ascii) (s : string) : string :=
  match s with
  | EmptyString => EmptyString
  | String c r => if isLineTerminator c then s else String (f c) r
  end.

(** [s.replace(/(?:^|\s)(\w)/g, (_, c) => c.toUpperCase())].
    [atStart] says that the scan is at index 0, the only index at which
    [^] matches.  A match consumes the space, if any, and the word
    character, and the scan resumes after it. *)
Fixpoint capitalizeWords (atStart : bool) (s : string) : string :=
  match s with
  | EmptyString => EmptyString
  | String c r =>
      if atStart && isWord c then String (upperChar c) (capitalizeWords false r)
      else if isSpace c then
        match r with
        | String d r' =>
            if isWord d then String (upperChar d) (capitalizeWords false r')
            else String c (capitalizeWords false r)
        | EmptyString => String c EmptyString
        end
      else String c (capitalizeWords false r)
  end.

End JS.

(** ** Node's [path] module, POSIX flavour *)

Module NodePath.
Import JS.

Definition sep : ascii := "/"%char.

Record ParsedPath := {
  root : string;
  dir : string;
  base : string;
  ext : string;
  name : string
}.

(** The components before the last non-empty component, and that
    component: trailing separators are ignored. *)
Fixpoint lastPart (segs : list string) : option (list string * string) :=
  match segs with
  | [] => None
  | s :: rest =>
      match lastPart rest with
      | Some (before, b) => Some (s :: before, b)
      | None => if (s =? "")%string then None else Some ([], s)
      end
  end.

(** The text before the last dot, and the text from that dot on. *)
Fixpoint cutLastDot (s : string) : option (string * string) :=
  match s with
  | EmptyString => None
  | String c r =>
      match cutLastDot r with
      | Some (n, e) => Some (String c n, e)
      | None => if (c =? ".")%char then Some (EmptyString, s) else None
      end
  end.

(** [name] and [ext] of a base name.  There is no extension when the
    base has no dot, when its only dot is its first character, or when it
    is exactly [..] (a test the algorithm misses for a base that directly
    follows the root of an absolute path). *)
Definition splitExt (b : string) (firstOfAbsolute : bool) : string * string :=
  match cutLastDot b with
  | None => (b, EmptyString)
  | Some (n, e) =>
      if (n =? "")%string || ((b =? "..")%string && negb firstOfAbsolute)
      then (b, EmptyString)
      else (n, e)
  end.

(** [path.parse(p)] *)
Definition parse (p : string) : ParsedPath :=
  let isAbsolute := startsWith p "/" in
  let rootStr := if isAbsolute then "/" else "" in
  let region := if isAbsolute then slice1 p else p in
  match lastPart (split sep region) with
  | None =>
      {| root := rootStr; dir := rootStr; base := ""; ext := ""; name := "" |}
  | Some (before, b) =>
      let atStart := match before with [] => true | _ => false end in
      let ne := splitExt b (isAbsolute && atStart) in
      {| root := rootStr;
         dir := if atStart then rootStr else rootStr +:+ join "/" before;
         base := b;
         ext := snd ne;
         name := fst ne |}
  end.

End NodePath.

(** ** [src/utils/path-utils.ts] *)

Module PathUtils.
Import JS.

Definition DEFAULT_SKIP_DIRS : list string :=
  ["components"; "[id]"; "queries"; "mutations"; "fragments";
   "subscriptions"; "graphql"; "gql"; "src"].

Record PathInfo := { dirName : string; fileName : string }.

(** [skipDirs?: string[]] *)
Record PathOptions := { skipDirs : option (list string) }.

(** The default value [{}] of the [options] parameter. *)
Definition noOptions : PathOptions := {| skipDirs := None |}.

(** [options.skipDirs ?? DEFAULT_SKIP_DIRS] *)
Definition effectiveSkipDirs (options : PathOptions) : list string :=
  match skipDirs options with
  | Some l => l
  | None => DEFAULT_SKIP_DIRS
  end.

(** [arr[i]], read where the index is in range. *)
Definition at_ (arr : list string) (i : nat) : string := nth i arr EmptyString.

(** Lines 44 to 49: the last segment, or the one before it when the last
    one is to be skipped and is not the only one. *)
Definition pickDir (skip dirs : list string) : string :=
  let dirName := at_ dirs (length dirs - 1) in
  if arrayIncludes skip dirName && (1 <? length dirs)
  then at_ dirs (length dirs - 2)
  else dirName.

Definition extractPathInfo (physicalFilename : string) (options : PathOptions)
  : PathInfo :=
  let skip := effectiveSkipDirs options in
  let parsed := NodePath.parse physicalFilename in
  let dirs := split NodePath.sep (NodePath.dir parsed) in
  let dirName := pickDir skip dirs in
  let dirName := removeChars isBracket dirName in
  let fileName :=
    removeChars isBracket (at_ (split "." (NodePath.name parsed)) 0) in
  {| dirName := dirName; fileName := fileName |}.

Definition toPascalCase (str : string) : string :=
  replaceFirstChar upperChar
    (removeChars isSpace
       (capitalizeWords true
          (mapChars (fun c => if isHyphenOrUnderscore c then " "%char else c)
             (removeChars isBracket str)))).

Definition calculatePrefix (physicalFilename : string) (options : PathOptions)
  : string :=
  let info := extractPathInfo physicalFilename options in
  let pascalDir := toPascalCase (dirName info) in
  let pascalFile := toPascalCase (fileName info) in
  if (pascalDir =? pascalFile)%string then pascalDir
  else pascalDir +:+ pascalFile.

Definition stripSuffix (str : string) : string :=
  removeAtEnd ["data"] (removeAtEnd ["list"] (removeAtEnd ["s"; "es"; "ies"] str)).

Definition hasSignificantOverlap (typeName fileName : string) : bool :=
  let normalizedType := toLowerCase typeName in
  let normalizedFile := toLowerCase fileName in
  let strippedType := stripSuffix normalizedType in
  let strippedFile := stripSuffix normalizedFile in
  includes strippedType strippedFile
  || includes strippedFile strippedType
  || (strippedType =? strippedFile)%string.

Definition calculatePrefixWithTypeName
    (physicalFilename typeName : string) (options : PathOptions) : string :=
  let info := extractPathInfo physicalFilename options in
  let pascalDir := toPascalCase (dirName info) in
  let pascalFile := toPascalCase (fileName info) in
  if hasSignificantOverlap typeName (fileName info) then
    if (pascalDir =? pascalFile)%string then ""
    else if truthy pascalDir
            && negb (arrayIncludes DEFAULT_SKIP_DIRS (toLowerCase (dirName info)))
    then pascalDir
    else ""
  else if (pascalDir =? pascalFile)%string then pascalDir
  else if negb (truthy pascalDir)
          || arrayIncludes DEFAULT_SKIP_DIRS (toLowerCase (dirName info))
  then pascalFile
  else pascalDir +:+ pascalFile.

End PathUtils.

(** ** [toPascalCase] on UTF-16 code units

    The same function on every JavaScript string: a string is the list of
    its code units, the classes [\s] and [.] are the ones of the language
    on all of them, and the case table, which is not written here, is the
    parameter [toUpperCase]: what [c.toUpperCase()] returns for the string
    of the one code unit [c], a string of one code unit or more. *)

Module CodeUnits.

Definition isBracket (c : N) : bool := ((c =? 91) || (c =? 93))%N.

Definition isHyphenOrUnderscore (c : N) : bool := ((c =? 45) || (c =? 95))%N.

(** [\w]: the ASCII letters and digits and the underscore. *)
Definition isWord (c : N) : bool :=
  (((97 <=? c) && (c <=? 122)) || ((65 <=? c) && (c <=? 90))
   || ((48 <=? c) && (c <=? 57)) || (c =? 95))%N.

(** [\s]: the white space and the line terminators of the language. *)
Definition isSpace (c : N) : bool :=
  (((9 <=? c) && (c <=? 13)) || (c =? 32) || (c =? 160) || (c =? 5760)
   || ((8192 <=? c) && (c <=? 8202)) || (c =? 8232) || (c =? 8233)
   || (c =? 8239) || (c =? 8287) || (c =? 12288) || (c =? 65279))%N.

(** [.] matches every code unit that is not a line terminator. *)
Definition isLineTerminator (c : N) : bool :=
  ((c =? 10) || (c =? 13) || (c =? 8232) || (c =? 8233))%N.

(** [s.replace(/[class]/g, '')] *)
Fixpoint removeUnits (p : N -> bool) (s : list N) : list N :=
  match s with
  | [] => []
  | c :: r => if p c then removeUnits p r else c :: removeUnits p r
  end.

(** [s.replace(/(?:^|\s)(\w)/g, (_, c) => c.toUpperCase())] *)
Fixpoint capitalizeWords (toUpperCase : N -> list N) (atStart : bool)
    (s : list N) : list N :=
  match s with
  | [] => []
  | c :: r =>
      if atStart && isWord c then
        toUpperCase c ++ capitalizeWords toUpperCase false r
      else if isSpace c then
        match r with
        | d :: r' =>
            if isWord d then toUpperCase d ++ capitalizeWords toUpperCase false r'
            else c :: capitalizeWords toUpperCase false r
        | [] => [c]
        end
      else c :: capitalizeWords toUpperCase false r
  end.

(** [s.replace(/^./, (c) => c.toUpperCase())] *)
Definition replaceFirstChar (toUpperCase : N -> list N) (s : list N) : list N :=
  match s with
  | [] => []
  | c :: r => if isLineTerminator c then s else toUpperCase c ++ r
  end.

Definition toPascalCase (toUpperCase : N -> list N) (str : list N) : list N :=
  replaceFirstChar toUpperCase
    (removeUnits isSpace
       (capitalizeWords toUpperCase true
          (map (fun c => if isHyphenOrUnderscore c then 32%N else c)
             (removeUnits isBracket str)))).

(** The code units that [toPascalCase] removes or rewrites. *)
Definition isSeparator (c : N) : bool :=
  isBracket c || isHyphenOrUnderscore c || isSpace c.

Definition noBracketHyphen (c : N) : bool :=
  negb (isBracket c || isHyphenOrUnderscore c).

(** Compact: no bracket, hyphen, underscore or space anywhere. *)
Definition isCompact (s : list N) : bool :=
  forallb (fun c => negb (isSeparator c)) s.

(** Capitalized: upper-casing the first code unit, if any, changes
    nothing. *)
Definition isCapitalized (toUpperCase : N -> list N) (s : list N) : Prop :=
  match s with
  | [] => True
  | c :: _ => toUpperCase c = [c]
  end.

(** The string with its first code unit upper-cased. *)
Definition capitalizeFirst (toUpperCase : N -> list N) (s : list N) : list N :=
  match s with
  | [] => []
  | c :: r => toUpperCase c ++ r
  end.

(** A piece of the case table: the ASCII letters, [e] with an acute accent
    and the sharp s, whose upper case is two code units long. *)
Definition sampleUpperCase (c : N) : list N :=
  (if (97 <=? c) && (c <=? 122) then [c - 32]
   else if c =? 233 then [201]
   else if c =? 223 then [83; 83]
   else [c])%N.

End CodeUnits.

(** ** [src/utils/naming-utils.ts] *)

Module NamingUtils.
Import JS.

(** The outcome of evaluating an expression: a value, or a [TypeError]
    raised by reading a property of [undefined] or [null]. *)
Inductive completion (A : Type) : Type :=
| Normal (a : A)
| Throw.
Arguments Normal {A} a.
Arguments Throw {A}.

Definition bind {A B} (c : completion A) (k : A -> completion B) : completion B :=
  match c with
  | Normal a => k a
  | Throw => Throw
  end.

Notation "'do' x <- c ; k" := (bind c (fun x => k))
  (at level 10, x name, c at level 100, k at level 200).

(** [o.p] where [o] may be [undefined]. *)
Definition read {A B} (o : option A) (p : A -> B) : completion B :=
  match o with
  | Some a => Normal (p a)
  | None => Throw
  end.

(** [!o] for [o] an object, [undefined] or [null]. *)
Definition falsy {A} (o : option A) : bool :=
  match o with
  | Some _ => false
  | None => true
  end.

(** A type reference as the code reads it:
    [{ ofType?: GraphQLType; name?: string }]. *)
#[warnings="-register-all"]
Inductive GraphQLType : Type :=
| MkType (name : option string) (ofType : option GraphQLType).

Definition name (t : GraphQLType) : option string :=
  match t with MkType n _ => n end.

Definition ofType (t : GraphQLType) : option GraphQLType :=
  match t with MkType _ o => o end.

Record GraphQLField := { type : option GraphQLType }.

Record GraphQLObjectType := { getFields : gmap string GraphQLField }.

Record GraphQLSchema := {
  getQueryType : option GraphQLObjectType;
  getMutationType : option GraphQLObjectType;
  getSubscriptionType : option GraphQLObjectType
}.

Inductive OperationType := query | mutation | subscription.

(** The [while] loop of [unwrapType]. *)
Fixpoint unwrapLoop (current : GraphQLType) : GraphQLType :=
  match current with
  | MkType _ (Some inner) => unwrapLoop inner
  | MkType _ None => current
  end.

(** The first test of the loop reads [type.ofType]. *)
Definition unwrapType (type : option GraphQLType) : completion GraphQLType :=
  read type unwrapLoop.

Definition getOperationTypeName (schema : GraphQLSchema)
    (operationType : OperationType) (firstFieldName : string)
  : completion (option string) :=
  let rootType :=
    match operationType with
    | query => getQueryType schema
    | mutation => getMutationType schema
    | subscription => getSubscriptionType schema
    end in
  if falsy rootType then Normal None
  else
    do fields <- read rootType getFields;
    let field : option GraphQLField := fields !! firstFieldName in
    if falsy field then Normal None
    else
      do fieldType <- read field type;
      if falsy fieldType then Normal None
      else
        do fieldType <- read field type;
        do unwrapped <- unwrapType fieldType;
        Normal (name unwrapped).

Definition capitalizeTypeName (typeName : string) : string :=
  if negb (truthy typeName) then ""
  else toUpperCase (charAt0 typeName) +:+ slice1 typeName.

Definition isValidName (actualName expectedPrefix typeName : string) : bool :=
  let expectedName := expectedPrefix +:+ capitalizeTypeName typeName in
  startsWith actualName expectedName.

Definition generateExpectedName (prefix typeName : string) : string :=
  prefix +:+ capitalizeTypeName typeName.

End NamingUtils.

(** ** [src/utils/report-utils.ts] *)

Module ReportUtils.
Import JS.

(** A name node of the syntax tree: its text and, when the parser
    recorded it, the span of the text in the source. *)
Record NameNode := { value : string; range : option (nat * nat) }.

(** What [fixer.replaceTextRange(range, text)] builds. *)
Record Fix := { fixRange : nat * nat; fixText : string }.

(** An entry of [suggest]; [sfix] is what its [fix] callback returns. *)
Record Suggestion := { desc : string; sfix : option Fix }.

(** The argument of [context.report]; [autofix] is what its [fix]
    callback returns. *)
Record Descriptor := {
  node : NameNode;
  message : string;
  autofix : option Fix;
  suggest : list Suggestion
}.

(** [ReportOptions] without its [context], which is the log of reports. *)
Record ReportOptions := {
  optNode : NameNode;
  expectedName : string;
  optMessage : string
}.

Definition doubleQuote : string := String "034"%char EmptyString.
Definition backtick : string := String "096"%char EmptyString.

(** The body shared by the two [fix] callbacks. *)
Definition renameFix (n : NameNode) (expected : string) : option Fix :=
  match range n with
  | None => None
  | Some (first, last) => Some {| fixRange := (first, last); fixText := expected |}
  end.

(** [context.report] appends to the log of the reports made so far. *)
Definition reportNamingViolation (log : list Descriptor) (options : ReportOptions)
  : list Descriptor :=
  log ++ [ {| node := optNode options;
              message := optMessage options +:+ " (expected: "
                         +:+ expectedName options +:+ ")";
              autofix := renameFix (optNode options) (expectedName options);
              suggest :=
                [ {| desc := "Rename to " +:+ backtick +:+ expectedName options
                             +:+ backtick;
                     sfix := renameFix (optNode options) (expectedName options) |} ]
           |} ].

Definition createFragmentMessage (expected : string) : string :=
  "Fragment name must start with " +:+ doubleQuote +:+ expected +:+ doubleQuote.

Definition createQueryMessage (expected : string) : string :=
  "Query name must start with " +:+ doubleQuote +:+ expected +:+ doubleQuote.

Definition createMutationMessage (expected : string) : string :=
  "Mutation name must start with " +:+ doubleQuote +:+ expected +:+ doubleQuote.

Definition createSubscriptionMessage (expected : string) : string :=
  "Subscription name must start with " +:+ doubleQuote +:+ expected +:+ doubleQuote.

End ReportUtils.

(** ** [src/rules/fragment.ts], [src/rules/operation.ts] and the mutation rule *)

Module Rules.
Import JS PathUtils NamingUtils ReportUtils.

(** The one entry of the rule options: [{ skipDirs?: string[] }]. *)
Record RuleOptions := { ruleSkipDirs : option (list string) }.

Record ParserServices := { schema : option GraphQLSchema }.

(** The rule context, without [report]: the listeners take the log of
    reports and return it. *)
Record Context := {
  physicalFilename : string;
  options : list RuleOptions;
  parserServices : option ParserServices
}.

Record TypeCondition := { conditionName : NameNode }.

Record FragmentDefinitionNode := {
  fragmentName : option NameNode;
  typeCondition : option TypeCondition
}.

(** A selection as the rules read it: [{ name?: { value: string } }]. *)
Record Selection := { selectionName : option NameNode }.

Record SelectionSet := { selections : option (list Selection) }.

Record OperationDefinitionNode := {
  operationName : option NameNode;
  operation : OperationType;
  selectionSet : option SelectionSet
}.

(** [context.options[0] ?? {}], then [{ skipDirs: options.skipDirs }]. *)
Definition pathOptionsOf (context : Context) : PathOptions :=
  let ruleOptions :=
    match options context with
    | o :: _ => o
    | [] => {| ruleSkipDirs := None |}
    end in
  {| skipDirs := ruleSkipDirs ruleOptions |}.

(** [!typeName] for a string or [null]. *)
Definition noTypeName (typeName : option string) : bool :=
  match typeName with
  | Some t => negb (truthy t)
  | None => true
  end.

(** [FragmentDefinition(node)] of the fragment rule. *)
Definition fragmentListener (context : Context) (fragment : FragmentDefinitionNode)
    (log : list Descriptor) : completion (list Descriptor) :=
  if falsy (fragmentName fragment) || falsy (typeCondition fragment) then Normal log
  else
    do actualName <- read (fragmentName fragment) value;
    do typeName <- read (typeCondition fragment) (fun c => value (conditionName c));
    let prefix :=
      calculatePrefixWithTypeName (physicalFilename context) typeName
        (pathOptionsOf context) in
    if negb (isValidName actualName prefix typeName) then
      let expected := generateExpectedName prefix typeName in
      do nameNode <- read (fragmentName fragment) (fun n => n);
      Normal (reportNamingViolation log
                {| optNode := nameNode; expectedName := expected;
                   optMessage := createFragmentMessage expected |})
    else Normal log.

(** [create] of the fragment rule: the listener, whatever the context. *)
Definition fragmentCreate (context : Context)
  : option (FragmentDefinitionNode -> list Descriptor -> completion (list Descriptor)) :=
  Some (fragmentListener context).

(** The first selection's field name, read behind the guards the two
    operation listeners share: [None] stands for their early [return]. *)
Definition firstFieldName (operationNode : OperationDefinitionNode)
  : completion (option string) :=
  if falsy (selectionSet operationNode) then Normal None
  else
    do sels <- read (selectionSet operationNode) selections;
    if falsy sels then Normal None
    else
      do len <- read sels (@length Selection);
      if (len =? 0)%nat then Normal None
      else
        do firstSelection <- read sels (fun l => nth_error l 0);
        do firstName <- read firstSelection selectionName;
        if falsy firstName then Normal None
        else
          do v <- read firstName value;
          Normal (Some v).

(** [OperationDefinition(node)] of the operation rule. *)
Definition operationListener (context : Context) (schemaObject : GraphQLSchema)
    (operationNode : OperationDefinitionNode) (log : list Descriptor)
  : completion (list Descriptor) :=
  if falsy (operationName operationNode) then Normal log
  else
    let operationType := operation operationNode in
    match operationType with
    | mutation => Normal log
    | _ =>
        do field <- firstFieldName operationNode;
        match field with
        | None => Normal log
        | Some fieldName =>
            do typeName <- getOperationTypeName schemaObject operationType fieldName;
            if noTypeName typeName then Normal log
            else
              do typeName <- read typeName (fun t => t);
              let prefix :=
                calculatePrefixWithTypeName (physicalFilename context) typeName
                  (pathOptionsOf context) in
              do actualName <- read (operationName operationNode) value;
              if negb (isValidName actualName prefix typeName) then
                let expected := generateExpectedName prefix typeName in
                let messageCreator :=
                  match operationType with
                  | query => createQueryMessage
                  | _ => createSubscriptionMessage
                  end in
                do nameNode <- read (operationName operationNode) (fun n => n);
                Normal (reportNamingViolation log
                          {| optNode := nameNode; expectedName := expected;
                             optMessage := messageCreator expected |})
              else Normal log
        end
    end.

(** [context.parserServices?.schema] *)
Definition schemaOf (context : Context) : option GraphQLSchema :=
  match parserServices context with
  | Some services => schema services
  | None => None
  end.

(** [create] of the operation rule: no listener without a schema. *)
Definition operationCreate (context : Context)
  : option (OperationDefinitionNode -> list Descriptor -> completion (list Descriptor)) :=
  match schemaOf context with
  | None => None
  | Some schemaObject => Some (operationListener context schemaObject)
  end.

(** [OperationDefinition(node)] of the mutation rule. *)
Definition mutationListener (context : Context) (schemaObject : GraphQLSchema)
    (operationNode : OperationDefinitionNode) (log : list Descriptor)
  : completion (list Descriptor) :=
  if falsy (operationName operationNode) then Normal log
  else
    match operation operationNode with
    | mutation =>
        do field <- firstFieldName operationNode;
        match field with
        | None => Normal log
        | Some fieldName =>
            do typeName <- getOperationTypeName schemaObject mutation fieldName;
            if noTypeName typeName then Normal log
            else
              do typeName <- read typeName (fun t => t);
              let prefix :=
                calculatePrefixWithTypeName (physicalFilename context) typeName
                  (pathOptionsOf context) in
              do actualName <- read (operationName operationNode) value;
              if negb (isValidName actualName prefix typeName) then
                let expected := generateExpectedName prefix typeName in
                do nameNode <- read (operationName operationNode) (fun n => n);
                Normal (reportNamingViolation log
                          {| optNode := nameNode; expectedName := expected;
                             optMessage := createMutationMessage expected |})
              else Normal log
        end
    | _ => Normal log
    end.

(** [create] of the mutation rule: no listener without a schema. *)
Definition mutationCreate (context : Context)
  : option (OperationDefinitionNode -> list Descriptor -> completion (list Descriptor)) :=
  match schemaOf context with
  | None => None
  | Some schemaObject => Some (mutationListener context schemaObject)
  end.

End Rules.

(** ** [unwrapType] over a store of objects

    JavaScript objects are references into a store, and nothing in the
    language keeps a chain of [ofType] references from running into
    itself.  This second reading of [unwrapType] keeps the store: the loop
    takes a bound on its iterations and returns the store it leaves. *)

Module Store.

Definition ref := nat.

Record Obj := { name : option string; ofType : option ref }.

(** [r.ofType]; a reference outside the store reads as an object without
    the property. *)
Definition readOfType (h : gmap ref Obj) (r : ref) : option ref :=
  match h !! r with
  | Some o => ofType o
  | None => None
  end.

(** The [while] loop, run for at most [fuel] tests of its condition: the
    reference it returns with the store it leaves, or [None] when the
    bound is reached first. *)
Fixpoint unwrapType (fuel : nat) (h : gmap ref Obj) (current : ref)
  : option (ref * gmap ref Obj) :=
  match fuel with
  | O => None
  | S fuel' =>
      match readOfType h current with
      | Some next => unwrapType fuel' h next
      | None => Some (current, h)
      end
  end.

(** [chain h r l last]: following [ofType] from [r] visits the wrapping
    references [l], in this order, and ends at [last], which wraps
    nothing. *)
Inductive chain (h : gmap ref Obj) : ref -> list ref -> ref -> Prop :=
| chain_end r :
    readOfType h r = None -> chain h r [] r
| chain_step r next l last :
    readOfType h r = Some next -> chain h next l last ->
    chain h r (r :: l) last.

(** The store holds the tree [t] at [r]. *)
Fixpoint holds (h : gmap ref Obj) (t : NamingUtils.GraphQLType) (r : ref) : Prop :=
  match t with
  | NamingUtils.MkType n None =>
      h !! r = Some {| name := n; ofType := None |}
  | NamingUtils.MkType n (Some inner) =>
      exists r', h !! r = Some {| name := n; ofType := Some r' |} /\ holds h inner r'
  end.

End Store.

Import JS PathUtils NamingUtils.

(** ** Vocabulary of the statements *)

(** [beginsWith s p]: [s] is [p] followed by some suffix. *)
Definition beginsWith (s p : string) : Prop := exists suffix, s = p +:+ suffix.

(** [occursIn sub s]: [sub] is a contiguous part of [s]. *)
Definition occursIn (sub s : string) : Prop :=
  exists before after, s = before +:+ sub +:+ after.

(** Every code unit of [s] satisfies [p]. *)
Fixpoint allChars (p : ascii -> bool) (s : string) : bool :=
  match s with
  | EmptyString => true
  | String c r => p c && allChars p r
  end.

(** The code units that [toPascalCase] removes or rewrites. *)
Definition isSeparator (c : ascii) : bool :=
  isBracket c || isHyphenOrUnderscore c || isSpace c.

(** Compact: no bracket, hyphen, underscore or space anywhere. *)
Definition isCompact (s : string) : bool :=
  allChars (fun c => negb (isSeparator c)) s.

(** Capitalized: the first code unit, if any, is not a lowercase letter. *)
Definition isCapitalized (s : string) : bool :=
  match s with
  | EmptyString => true
  | String c _ => negb (isLower c)
  end.

(** The string with its first code unit in upper case. *)
Definition capitalizeFirst (s : string) : string :=
  match s with
  | EmptyString => EmptyString
  | String c r => String (upperChar c) r
  end.

(** Neither a bracket nor a hyphen nor an underscore. *)
Definition noBracketHyphen (c : ascii) : bool :=
  negb (isBracket c || isHyphenOrUnderscore c).

(** A path component: not empty, and without a separator. *)
Definition isComponent (s : string) : bool :=
  truthy s && allChars (fun c => negb (c =? NodePath.sep)%char) s.

(** The part of [s] before its first dot; all of [s] when it has none. *)
Fixpoint beforeDot (s : string) : string :=
  match s with
  | EmptyString => EmptyString
  | String c r => if (c =? ".")%char then EmptyString else String c (beforeDot r)
  end.

(** An ASCII code unit, and a string of ASCII code units: on these the
    functions of the module [JS] are the functions of JavaScript. *)
Definition isAscii (c : ascii) : bool := (code c <? 128)%N.

Definition isAsciiString (s : string) : bool := allChars isAscii s.

(** The code units of a string. *)
Fixpoint units (s : string) : list N :=
  match s with
  | EmptyString => []
  | String c r => code c :: units r
  end.

(** The strings of [pieces] one after the other. *)
Fixpoint concatAll (pieces : list string) : string :=
  match pieces with
  | [] => EmptyString
  | p :: rest => p +:+ concatAll rest
  end.

(** The last code unit of [s] is [z]. *)
Fixpoint endsWithChar (z : ascii) (s : string) : bool :=
  match s with
  | EmptyString => false
  | String c EmptyString => (c =? z)%char
  | String _ r => endsWithChar z r
  end.

(** [t] under the wrappers named [names], the first one outermost. *)
Fixpoint wrapped (names : list (option string)) (t : GraphQLType) : GraphQLType :=
  match names with
  | [] => t
  | n :: rest => MkType n (Some (wrapped rest t))
  end.

(** The name the rules expect for a construct of type [typeName] in the
    file of [context]. *)
Definition expectedNameIn (context : Rules.Context) (typeName : string) : string :=
  generateExpectedName
    (calculatePrefixWithTypeName (Rules.physicalFilename context) typeName
       (Rules.pathOptionsOf context))
    typeName.

(** The descriptor the rules report for the name node [n]. *)
Definition violation (n : ReportUtils.NameNode) (expected messageText : string)
  : ReportUtils.Descriptor :=
  {| ReportUtils.node := n;
     ReportUtils.message := messageText +:+ " (expected: " +:+ expected +:+ ")";
     ReportUtils.autofix := ReportUtils.renameFix n expected;
     ReportUtils.suggest :=
       [ {| ReportUtils.desc :=
              "Rename to " +:+ ReportUtils.backtick +:+ expected
              +:+ ReportUtils.backtick;
            ReportUtils.sfix := ReportUtils.renameFix n expected |} ] |}.

(** The name of the field an operation selects first, if its first
    selection has a name. *)
Definition firstField (operationNode : Rules.OperationDefinitionNode)
  : option string :=
  match Rules.selectionSet operationNode with
  | Some {| Rules.selections := Some (first :: _) |} =>
      match Rules.selectionName first with
      | Some n => Some (ReportUtils.value n)
      | None => None
      end
  | _ => None
  end.

(** The type name the operation rules go by: the name that
    [getOperationTypeName] finds for the first field, unless it is empty. *)
Definition resolvedTypeName (schemaObject : GraphQLSchema)
    (operationNode : Rules.OperationDefinitionNode) : option string :=
  match firstField operationNode with
  | None => None
  | Some fieldName =>
      match getOperationTypeName schemaObject (Rules.operation operationNode)
              fieldName with
      | Normal (Some t) => if truthy t then Some t else None
      | _ => None
      end
  end.

(** The node with the text of its name replaced. *)
Definition renameNode (n : ReportUtils.NameNode) (text : string)
  : ReportUtils.NameNode :=
  {| ReportUtils.value := text; ReportUtils.range := ReportUtils.range n |}.

Definition renameFragment (fragment : Rules.FragmentDefinitionNode) (text : string)
  : Rules.FragmentDefinitionNode :=
  {| Rules.fragmentName :=
       option_map (fun n => renameNode n text) (Rules.fragmentName fragment);
     Rules.typeCondition := Rules.typeCondition fragment |}.

Definition renameOperation (operationNode : Rules.OperationDefinitionNode)
    (text : string) : Rules.OperationDefinitionNode :=
  {| Rules.operationName :=
       option_map (fun n => renameNode n text) (Rules.operationName operationNode);
     Rules.operation := Rules.operation operationNode;
     Rules.selectionSet := Rules.selectionSet operationNode |}.

(** The context and the nodes of the rule tests of the repository. *)
Definition userCardContext : Rules.Context :=
  {| Rules.physicalFilename := "/path/to/features/users/components/UserCard.vue";
     Rules.options := [];
     Rules.parserServices := None |}.

Definition onUser : Rules.TypeCondition :=
  {| Rules.conditionName :=
       {| ReportUtils.value := "User"; ReportUtils.range := None |} |}.

Definition fragmentNamed (n : ReportUtils.NameNode) : Rules.FragmentDefinitionNode :=
  {| Rules.fragmentName := Some n; Rules.typeCondition := Some onUser |}.

(** The schema of the operation tests of the repository: queries [user],
    [users] (a wrapped type) and [post], a subscription, no mutation. *)
Definition mockSchema : GraphQLSchema :=
  let named n := MkType (Some n) None in
  {| getQueryType :=
       Some {| getFields :=
                 <["user" := {| type := Some (named "User") |}]>
                   (<["users" :=
                        {| type := Some (MkType None (Some (named "User"))) |}]>
                      (<["post" := {| type := Some (named "Post") |}]> ∅)) |};
     getMutationType := None;
     getSubscriptionType :=
       Some {| getFields :=
                 <["userUpdated" := {| type := Some (named "User") |}]> ∅ |} |}.

(** The schema of the mutation tests of the repository. *)
Definition mutationMockSchema : GraphQLSchema :=
  let named n := MkType (Some n) None in
  {| getQueryType := None;
     getMutationType :=
       Some {| getFields :=
                 <["createUser" := {| type := Some (named "User") |}]>
                   (<["updateUser" := {| type := Some (named "User") |}]>
                      (<["deletePost" := {| type := Some (named "Post") |}]> ∅)) |};
     getSubscriptionType := None |}.

(** The mock context of the rule tests. *)
Definition mockContext (path : string) (ruleOptions : list Rules.RuleOptions)
    (schemaObject : option GraphQLSchema) : Rules.Context :=
  {| Rules.physicalFilename := path;
     Rules.options := ruleOptions;
     Rules.parserServices := Some {| Rules.schema := schemaObject |} |}.

(** The operation [kind name { field }]. *)
Definition operationOn (kind : OperationType) (n : ReportUtils.NameNode)
    (field : string) : Rules.OperationDefinitionNode :=
  {| Rules.operationName := Some n;
     Rules.operation := kind;
     Rules.selectionSet :=
       Some {| Rules.selections :=
                 Some [ {| Rules.selectionName :=
                             Some {| ReportUtils.value := field;
                                     ReportUtils.range := None |} |} ] |} |}.

(** Case analysis on the 256 code units of the model. *)
Ltac ascii_cases c :=
  destruct c as [[|] [|] [|] [|] [|] [|] [|] [|]];
  vm_compute; try reflexivity; try discriminate.

(** The segments of the directory portion of a path, as [extractPathInfo]
    computes them: an absolute path contributes a first, empty segment. *)
Definition dirSegments (physicalFilename : string) : list string :=
  split NodePath.sep (NodePath.dir (NodePath.parse physicalFilename)).

(** The directories a path names, outermost first: the non-empty pieces of
    its directory portion. *)
Definition directoryNames (physicalFilename : string) : list string :=
  List.filter truthy (dirSegments physicalFilename).

(** [d] is in [skip] up to the case of letters. *)
Definition caselessMember (d : string) (skip : list string) : Prop :=
  exists e, In e skip /\ toLowerCase e = toLowerCase d.

(** The [switch] on the operation kind. *)
Definition rootTypeOf (schema : GraphQLSchema) (operationType : OperationType)
  : option GraphQLObjectType :=
  match operationType with
  | query => getQueryType schema
  | mutation => getMutationType schema
  | subscription => getSubscriptionType schema
  end.

(** [endsAt t last]: following [ofType] from [t] ends at [last], the first
    reference that wraps nothing. *)
Inductive endsAt : GraphQLType -> GraphQLType -> Prop :=
| endsAt_here n : endsAt (MkType n None) (MkType n None)
| endsAt_step n inner last :
    endsAt inner last -> endsAt (MkType n (Some inner)) last.

(** The declared type of [field] is a chain that ends in a reference
    carrying the name [n]. *)
Definition endsInName (field : GraphQLField) (n : string) : Prop :=
  exists t last, type field = Some t /\ endsAt t last /\ name last = Some n.

(** A store with a non-null wrapper around a list wrapper around the
    named type [User]. *)
Definition listOfUsers : gmap Store.ref Store.Obj :=
  <[0 := {| Store.name := None; Store.ofType := Some 1 |}]>
    (<[1 := {| Store.name := None; Store.ofType := Some 2 |}]>
       (<[2 := {| Store.name := Some "User"; Store.ofType := None |}]> ∅)).

(** ** The unit tests of the repository, on the model *)

Example toPascalCase_tests :
  toPascalCase "user-card" = "UserCard"
  /\ toPascalCase "user_list" = "UserList"
  /\ toPascalCase "[id]" = "Id"
  /\ toPascalCase "UserCard" = "UserCard"
  /\ toPascalCase "users" = "Users"
  /\ toPascalCase "user-Profile-card" = "UserProfileCard".
Proof. repeat split; reflexivity. Qed.

Example extractPathInfo_tests :
  extractPathInfo "/path/to/features/users/components/UserCard.vue" noOptions
    = {| dirName := "users"; fileName := "UserCard" |}
  /\ extractPathInfo
       "/path/to/engine/components/organisms/OrderDetail/Main/Header/OrderTask.client.fragment.ts"
       noOptions
     = {| dirName := "Header"; fileName := "OrderTask" |}
  /\ extractPathInfo "/path/to/features/orders/[id]/components/OrderForm.vue" noOptions
     = {| dirName := "id"; fileName := "OrderForm" |}
  /\ extractPathInfo "/path/to/features/users/pages/UserPage.vue"
       {| skipDirs := Some ["pages"] |}
     = {| dirName := "users"; fileName := "UserPage" |}
  /\ fileName (extractPathInfo "/path/to/pages/[userId].vue" noOptions) = "userId".
Proof. repeat split; reflexivity. Qed.

Example calculatePrefix_tests :
  calculatePrefix "/path/to/features/users/components/UserCard.vue" noOptions
    = "UsersUserCard"
  /\ calculatePrefix
       "/path/to/engine/components/organisms/OrderDetail/Main/Header/OrderTask.client.fragment.ts"
       noOptions
     = "HeaderOrderTask"
  /\ calculatePrefix "/path/to/features/users/Users.vue" noOptions = "Users"
  /\ calculatePrefix "/path/to/features/UserProfile/components/Avatar.vue" noOptions
     = "UserProfileAvatar".
Proof. repeat split; reflexivity. Qed.

Example hasSignificantOverlap_tests :
  hasSignificantOverlap "AssignmentMessage" "AssignmentMessages" = true
  /\ hasSignificantOverlap "User" "UserList" = true
  /\ hasSignificantOverlap "User" "Users" = true
  /\ hasSignificantOverlap "User" "OrderCard" = false
  /\ hasSignificantOverlap "OrderForClient" "Orders" = true.
Proof. repeat split; reflexivity. Qed.

Example calculatePrefixWithTypeName_tests :
  calculatePrefixWithTypeName "/path/to/src/queries/AssignmentMessages.gql"
    "AssignmentMessage" noOptions = ""
  /\ calculatePrefixWithTypeName "/path/to/features/users/components/UserCard.vue"
       "Order" noOptions = "UsersUserCard"
  /\ calculatePrefixWithTypeName "/path/to/features/users/components/UserList.vue"
       "User" noOptions = "Users"
  /\ calculatePrefixWithTypeName
       "/path/to/engine/organisms/OrderDetail/Main/Header/OrderTask.fragment.ts"
       "Order" noOptions = "Header".
Proof. repeat split; reflexivity. Qed.

(** [path.parse] on the examples of Node's documentation and on the
    corner cases of its algorithm. *)
Example parse_tests :
  NodePath.parse "/home/user/dir/file.txt"
    = {| NodePath.root := "/"; NodePath.dir := "/home/user/dir";
         NodePath.base := "file.txt"; NodePath.ext := ".txt";
         NodePath.name := "file" |}
  /\ NodePath.parse "/file.txt"
     = {| NodePath.root := "/"; NodePath.dir := "/";
          NodePath.base := "file.txt"; NodePath.ext := ".txt";
          NodePath.name := "file" |}
  /\ NodePath.parse "file.client.fragment.ts"
     = {| NodePath.root := ""; NodePath.dir := "";
          NodePath.base := "file.client.fragment.ts"; NodePath.ext := ".ts";
          NodePath.name := "file.client.fragment" |}
  /\ NodePath.parse "a/b/"
     = {| NodePath.root := ""; NodePath.dir := "a";
          NodePath.base := "b"; NodePath.ext := ""; NodePath.name := "b" |}
  /\ NodePath.parse "a//b"
     = {| NodePath.root := ""; NodePath.dir := "a/";
          NodePath.base := "b"; NodePath.ext := ""; NodePath.name := "b" |}
  /\ NodePath.parse "a/.bashrc"
     = {| NodePath.root := ""; NodePath.dir := "a";
          NodePath.base := ".bashrc"; NodePath.ext := "";
          NodePath.name := ".bashrc" |}
  /\ NodePath.parse ""
     = {| NodePath.root := ""; NodePath.dir := "";
          NodePath.base := ""; NodePath.ext := ""; NodePath.name := "" |}
  /\ NodePath.parse "/"
     = {| NodePath.root := "/"; NodePath.dir := "/";
          NodePath.base := ""; NodePath.ext := ""; NodePath.name := "" |}.
Proof. repeat split; reflexivity. Qed.

(** The schema of [tests/rules/operation.test.ts]: [users] has a wrapped
    type, and there is no mutation type. *)
Example getOperationTypeName_tests :
  let named n := MkType (Some n) None in
  let queryType :=
    {| getFields :=
         <["user" := {| type := Some (named "User") |}]>
           (<["users" := {| type := Some (MkType None (Some (named "User"))) |}]>
              (<["post" := {| type := Some (named "Post") |}]> ∅)) |} in
  let schema :=
    {| getQueryType := Some queryType;
       getMutationType := None;
       getSubscriptionType :=
         Some {| getFields :=
                   <["userUpdated" := {| type := Some (named "User") |}]> ∅ |} |} in
  getOperationTypeName schema query "user" = Normal (Some "User")
  /\ getOperationTypeName schema query "users" = Normal (Some "User")
  /\ getOperationTypeName schema query "post" = Normal (Some "Post")
  /\ getOperationTypeName schema query "missing" = Normal None
  /\ getOperationTypeName schema subscription "userUpdated" = Normal (Some "User")
  /\ getOperationTypeName schema mutation "createUser" = Normal None.
Proof. cbv zeta. repeat split; vm_compute; reflexivity. Qed.

(** [tests/rules/mutation.test.ts] and the custom [skipDirs] test of
    [tests/rules/fragment.test.ts]. *)
Example rules_tests :
  let userForm := "/path/to/features/users/components/UserForm.vue" in
  let run context operationNode :=
    match Rules.mutationCreate context with
    | Some listener => Some (listener operationNode [])
    | None => None
    end in
  let named text span :=
    {| ReportUtils.value := text; ReportUtils.range := Some span |} in
  run (mockContext userForm [] (Some mutationMockSchema))
    (operationOn mutation (named "CreateUser" (9, 19)) "createUser")
  = Some (Normal [violation (named "CreateUser" (9, 19)) "UsersUser"
                    (ReportUtils.createMutationMessage "UsersUser")])
  /\ run (mockContext userForm [] (Some mutationMockSchema))
       (operationOn mutation (named "UsersUserFormUser" (9, 26)) "createUser")
     = Some (Normal [])
  /\ run (mockContext userForm [] (Some mutationMockSchema))
       (operationOn mutation (named "UsersUserFormUserCreate" (9, 32)) "createUser")
     = Some (Normal [])
  /\ run (mockContext userForm [] (Some mutationMockSchema))
       (operationOn query (named "GetUser" (6, 13)) "user")
     = Some (Normal [])
  /\ run (mockContext userForm [] (Some mutationMockSchema))
       {| Rules.operationName := None; Rules.operation := mutation;
          Rules.selectionSet :=
            Rules.selectionSet
              (operationOn mutation (named "x" (0, 1)) "createUser") |}
     = Some (Normal [])
  /\ run (mockContext userForm [] None)
       (operationOn mutation (named "CreateUser" (9, 19)) "createUser")
     = None
  /\ run (mockContext "/path/to/engine/organisms/OrderDetail/Main/Header/OrderForm.vue"
            [] (Some mutationMockSchema))
       (operationOn mutation (named "UpdateOrder" (9, 20)) "createUser")
     = Some (Normal [violation (named "UpdateOrder" (9, 20)) "HeaderOrderFormUser"
                       (ReportUtils.createMutationMessage "HeaderOrderFormUser")])
  /\ Rules.fragmentListener
       (mockContext "/path/to/features/users/pages/UserPage.vue"
          [ {| Rules.ruleSkipDirs := Some ["pages"] |} ] None)
       (fragmentNamed (named "UsersUserPageUser" (9, 26))) []
     = Normal [].
Proof. cbv zeta. repeat split; vm_compute; reflexivity. Qed.

(** ** Strings: prefixes and occurrences *)

Lemma append_cons (c : ascii) (s t : string) :
  String c s +:+ t = String c (s +:+ t).
Proof. reflexivity. Qed.

Lemma append_nil (t : string) : "" +:+ t = t.
Proof. reflexivity. Qed.

Lemma append_empty_r (s : string) : s +:+ "" = s.
Proof.
  induction s as [|c s IH]; [reflexivity | now rewrite append_cons, IH].
Qed.

Lemma append_assoc (a b c : string) : (a +:+ b) +:+ c = a +:+ b +:+ c.
Proof.
  induction a as [|x a IH]; [reflexivity | now rewrite !append_cons, IH].
Qed.

Lemma startsWith_beginsWith (s p : string) :
  startsWith s p = true <-> beginsWith s p.
Proof.
  revert s. induction p as [|a p IH]; intros s.
  - split; [intros _; exists s; reflexivity | intros _; now destruct s].
  - destruct s as [|b s]; cbn [startsWith].
    + split; [discriminate | intros [suf H]; discriminate].
    + rewrite andb_true_iff, Ascii.eqb_eq, IH. split.
      * intros [-> [suf ->]]. exists suf. reflexivity.
      * intros [suf H]. rewrite append_cons in H. injection H as -> ->.
        split; [reflexivity | now exists suf].
Qed.

Lemma startsWith_append (p suffix : string) : startsWith (p +:+ suffix) p = true.
Proof. apply startsWith_beginsWith. now exists suffix. Qed.

Lemma startsWith_empty (s : string) : startsWith s "" = true.
Proof. destruct s; reflexivity. Qed.

Lemma includes_empty (s : string) : includes s "" = true.
Proof. destruct s; reflexivity. Qed.

Lemma includes_occursIn (s sub : string) :
  includes s sub = true <-> occursIn sub s.
Proof.
  induction s as [|c s IH].
  - cbn [includes]. rewrite orb_false_r, startsWith_beginsWith. split.
    + intros [suf H]. exists "", suf. exact H.
    + intros [[|x before] [after H]]; [now exists after | discriminate].
  - cbn [includes]. rewrite orb_true_iff, IH, startsWith_beginsWith. split.
    + intros [[suf H] | [before [after H]]].
      * exists "", suf. exact H.
      * exists (String c before), after. now rewrite append_cons, H.
    + intros [[|x before] [after H]].
      * left. now exists after.
      * right. rewrite append_cons in H. injection H as _ H. now exists before, after.
Qed.

(** ** [isValidName] and [generateExpectedName] *)

(** [capitalizeTypeName] capitalizes the first character and nothing else. *)
Lemma capitalizeTypeName_spec (typeName : string) :
  capitalizeTypeName typeName
  = match typeName with
    | EmptyString => EmptyString
    | String c rest => String (upperChar c) rest
    end.
Proof. destruct typeName; reflexivity. Qed.

(** C2: [isValidName] is the prefix test against [generateExpectedName],
    which is the prefix followed by the type name with its first character
    capitalized.  Hence every name made of the expected name and a suffix,
    empty or not, is valid, and a name that does not begin with the
    expected name is not. *)
Theorem isValidName_prefix_match (actualName prefix typeName : string) :
  generateExpectedName prefix typeName
  = prefix +:+ match typeName with
               | EmptyString => EmptyString
               | String c rest => String (upperChar c) rest
               end
  /\ (isValidName actualName prefix typeName = true
      <-> beginsWith actualName (generateExpectedName prefix typeName))
  /\ (forall suffix,
        isValidName (generateExpectedName prefix typeName +:+ suffix) prefix typeName
        = true)
  /\ isValidName (generateExpectedName prefix typeName) prefix typeName = true
  /\ (~ beginsWith actualName (generateExpectedName prefix typeName) ->
      isValidName actualName prefix typeName = false).
Proof.
  assert (Hiff : forall x, isValidName x prefix typeName = true
                           <-> beginsWith x (generateExpectedName prefix typeName)).
  { intros x. unfold isValidName, generateExpectedName. apply startsWith_beginsWith. }
  repeat split.
  - unfold generateExpectedName. now rewrite capitalizeTypeName_spec.
  - apply Hiff.
  - apply Hiff.
  - intros suffix. apply Hiff. now exists suffix.
  - apply Hiff. exists "". now rewrite append_empty_r.
  - intros Hno. destruct (isValidName actualName prefix typeName) eqn:E; [|reflexivity].
    exfalso. apply Hno, Hiff, E.
Qed.

(** ** [hasSignificantOverlap] *)

(** The decision is the containment test on the stripped, case-folded
    forms, in both directions. *)
Lemma hasSignificantOverlap_spec (typeName fileName : string) :
  hasSignificantOverlap typeName fileName = true
  <-> occursIn (stripSuffix (toLowerCase fileName)) (stripSuffix (toLowerCase typeName))
      \/ occursIn (stripSuffix (toLowerCase typeName)) (stripSuffix (toLowerCase fileName))
      \/ stripSuffix (toLowerCase typeName) = stripSuffix (toLowerCase fileName).
Proof.
  unfold hasSignificantOverlap.
  rewrite !orb_true_iff, !includes_occursIn, String.eqb_eq. tauto.
Qed.

(** C7: [hasSignificantOverlap] gives the same answer when its arguments
    are exchanged, the decision being that one of the stripped, case-folded
    strings occurs in the other or that they are equal. *)
Theorem hasSignificantOverlap_comm (a b : string) :
  hasSignificantOverlap a b = hasSignificantOverlap b a
  /\ (hasSignificantOverlap a b = true
      <-> occursIn (stripSuffix (toLowerCase b)) (stripSuffix (toLowerCase a))
          \/ occursIn (stripSuffix (toLowerCase a)) (stripSuffix (toLowerCase b))
          \/ stripSuffix (toLowerCase a) = stripSuffix (toLowerCase b)).
Proof.
  split; [|apply hasSignificantOverlap_spec].
  unfold hasSignificantOverlap.
  rewrite (String.eqb_sym (stripSuffix (toLowerCase a))).
  rewrite (orb_comm (includes (stripSuffix (toLowerCase a)) _)).
  reflexivity.
Qed.

(** C10: when the suffix stripping leaves nothing of one of the two
    case-folded arguments, the overlap test succeeds whatever the other
    argument is: the empty string occurs in every string. *)
Theorem hasSignificantOverlap_empty_stripped (typeName fileName : string) :
  stripSuffix (toLowerCase typeName) = "" \/ stripSuffix (toLowerCase fileName) = "" ->
  hasSignificantOverlap typeName fileName = true.
Proof.
  intros [H | H]; unfold hasSignificantOverlap; rewrite H.
  - now rewrite (includes_empty (stripSuffix (toLowerCase fileName))), orb_true_r.
  - now rewrite (includes_empty (stripSuffix (toLowerCase typeName))).
Qed.

Lemma hasSignificantOverlap_empty_stripped_witness :
  hasSignificantOverlap "OrderCard" "" = true
  /\ hasSignificantOverlap "OrderCard" "s" = true
  /\ hasSignificantOverlap "OrderCard" "list" = true
  /\ hasSignificantOverlap "OrderCard" "data" = true
  /\ hasSignificantOverlap "Lists" "OrderCard" = true.
Proof.
  split; [|split; [|split; [|split]]].
  - apply (hasSignificantOverlap_empty_stripped "OrderCard" ""). right. reflexivity.
  - apply (hasSignificantOverlap_empty_stripped "OrderCard" "s"). right. reflexivity.
  - apply (hasSignificantOverlap_empty_stripped "OrderCard" "list"). right. reflexivity.
  - apply (hasSignificantOverlap_empty_stripped "OrderCard" "data"). right. reflexivity.
  - apply (hasSignificantOverlap_empty_stripped "Lists" "OrderCard"). left. reflexivity.
Defined.

(** ** [toPascalCase] *)

Lemma upperChar_idem (c : ascii) : upperChar (upperChar c) = upperChar c.
Proof. ascii_cases c. Qed.

Lemma isSeparator_upperChar (c : ascii) : isSeparator (upperChar c) = isSeparator c.
Proof. ascii_cases c. Qed.


Lemma isLower_upperChar (c : ascii) : isLower (upperChar c) = false.
Proof. ascii_cases c. Qed.

Lemma upperChar_not_lower (c : ascii) : isLower c = false -> upperChar c = c.
Proof. unfold upperChar. now intros ->. Qed.

Lemma isSeparator_line_terminator (c : ascii) :
  isSeparator c = false -> isLineTerminator c = false.
Proof. ascii_cases c. Qed.

Lemma isSeparator_space (c : ascii) : isSeparator c = false -> isSpace c = false.
Proof. ascii_cases c. Qed.

Lemma isSeparator_bracket (c : ascii) : isSeparator c = false -> isBracket c = false.
Proof. ascii_cases c. Qed.

Lemma isSeparator_hyphen (c : ascii) :
  isSeparator c = false -> isHyphenOrUnderscore c = false.
Proof. ascii_cases c. Qed.


Lemma isLower_not_separator (c : ascii) : isLower c = true -> isSeparator c = false.
Proof. ascii_cases c. Qed.

Lemma allChars_impl (p q : ascii -> bool) (s : string) :
  (forall c, p c = true -> q c = true) ->
  allChars p s = true -> allChars q s = true.
Proof.
  intros Hpq. induction s as [|c r IH]; [reflexivity|].
  cbn [allChars]. rewrite !andb_true_iff. intros [Hc Hr]. auto.
Qed.

(** Induction on strings two code units at a time, as [capitalizeWords]
    recurses. *)
Lemma string_pair_ind (P : string -> Prop) :
  P "" ->
  (forall c, P (String c "")) ->
  (forall c d r, P r -> P (String d r) -> P (String c (String d r))) ->
  forall s, P s.
Proof.
  intros H0 H1 H2.
  assert (H : forall s, P s /\ forall c, P (String c s)).
  { induction s as [|d r [IHr IHc]].
    - split; [exact H0 | exact H1].
    - split; [apply IHc | intros c; apply H2; [exact IHr | apply IHc]]. }
  intros s. apply H.
Qed.

(** Without a space there is nothing for the scan to consume after the
    first index. *)
Lemma capitalizeWords_compact (s : string) :
  isCompact s = true -> capitalizeWords false s = s.
Proof.
  induction s as [|c r IH]; [reflexivity|].
  unfold isCompact. cbn [allChars]. rewrite andb_true_iff, negb_true_iff.
  intros [Hc Hr]. cbn [capitalizeWords andb].
  rewrite (isSeparator_space c Hc). now rewrite (IH Hr).
Qed.

Lemma removeChars_none (p : ascii -> bool) (s : string) :
  allChars (fun c => negb (p c)) s = true -> removeChars p s = s.
Proof.
  induction s as [|c r IH]; [reflexivity|].
  cbn [allChars removeChars]. rewrite andb_true_iff, negb_true_iff.
  intros [-> Hr]. now rewrite (IH Hr).
Qed.

Lemma mapChars_fixed (f : ascii -> ascii) (p : ascii -> bool) (s : string) :
  (forall c, p c = true -> f c = c) ->
  allChars p s = true -> mapChars f s = s.
Proof.
  intros Hf. induction s as [|c r IH]; [reflexivity|].
  cbn [allChars mapChars]. rewrite andb_true_iff.
  intros [Hc Hr]. now rewrite (Hf c Hc), (IH Hr).
Qed.

(** On a compact string [toPascalCase] capitalizes the first code unit and
    does nothing else. *)
Lemma toPascalCase_compact (s : string) :
  isCompact s = true -> toPascalCase s = capitalizeFirst s.
Proof.
  intros Hs. unfold toPascalCase.
  rewrite (removeChars_none isBracket s).
  2:{ revert Hs. apply allChars_impl. intros c. rewrite !negb_true_iff.
      apply isSeparator_bracket. }
  rewrite (mapChars_fixed _ (fun c => negb (isSeparator c)) s); [|
    intros c; rewrite negb_true_iff; intros Hc;
    now rewrite (isSeparator_hyphen c Hc) | exact Hs].
  destruct s as [|c r]; [reflexivity|].
  unfold isCompact in Hs. cbn [allChars] in Hs.
  apply andb_true_iff in Hs as [Hc Hr]. apply negb_true_iff in Hc.
  assert (Hcap : capitalizeWords true (String c r)
                 = String (if isWord c then upperChar c else c) r).
  { cbn [capitalizeWords andb]. destruct (isWord c).
    - now rewrite (capitalizeWords_compact r Hr).
    - rewrite (isSeparator_space c Hc). now rewrite (capitalizeWords_compact r Hr). }
  rewrite Hcap.
  assert (Hc' : isSeparator (if isWord c then upperChar c else c) = false).
  { destruct (isWord c); [now rewrite isSeparator_upperChar | exact Hc]. }
  rewrite (removeChars_none isSpace).
  2:{ cbn [allChars]. rewrite (isSeparator_space _ Hc'). cbn [negb andb].
      revert Hr. apply allChars_impl. intros x. rewrite !negb_true_iff.
      apply isSeparator_space. }
  cbn [replaceFirstChar capitalizeFirst].
  rewrite (isSeparator_line_terminator _ Hc').
  destruct (isWord c); [now rewrite upperChar_idem | reflexivity].
Qed.


Lemma capitalizeWords_cons (b : bool) (c : ascii) (r : string) :
  capitalizeWords b (String c r)
  = if b && isWord c then String (upperChar c) (capitalizeWords false r)
    else if isSpace c then
      match r with
      | String d r' =>
          if isWord d then String (upperChar d) (capitalizeWords false r')
          else String c (capitalizeWords false r)
      | EmptyString => String c EmptyString
      end
    else String c (capitalizeWords false r).
Proof. reflexivity. Qed.




(** *** On all strings *)

Lemma unit_separator_parts (c : N) :
  CodeUnits.isSeparator c = false ->
  CodeUnits.isBracket c = false
  /\ CodeUnits.isHyphenOrUnderscore c = false
  /\ CodeUnits.isSpace c = false.
Proof. unfold CodeUnits.isSeparator. rewrite !orb_false_iff. tauto. Qed.

Lemma unit_space_spec (c : N) :
  CodeUnits.isSpace c = true
  <-> (9 <= c <= 13 \/ c = 32 \/ c = 160 \/ c = 5760 \/ 8192 <= c <= 8202
       \/ c = 8232 \/ c = 8233 \/ c = 8239 \/ c = 8287 \/ c = 12288
       \/ c = 65279)%N.
Proof.
  unfold CodeUnits.isSpace.
  rewrite !orb_true_iff, !andb_true_iff, !N.eqb_eq, !N.leb_le. tauto.
Qed.

Lemma unit_word_spec (c : N) :
  CodeUnits.isWord c = true
  <-> (97 <= c <= 122 \/ 65 <= c <= 90 \/ 48 <= c <= 57 \/ c = 95)%N.
Proof.
  unfold CodeUnits.isWord.
  rewrite !orb_true_iff, !andb_true_iff, !N.eqb_eq, !N.leb_le. tauto.
Qed.

Lemma unit_line_terminator_space (c : N) :
  CodeUnits.isSpace c = false -> CodeUnits.isLineTerminator c = false.
Proof.
  intros Hs. apply not_true_iff_false. intros Hl.
  apply not_true_iff_false in Hs. apply Hs, unit_space_spec.
  unfold CodeUnits.isLineTerminator in Hl.
  rewrite !orb_true_iff, !N.eqb_eq in Hl. lia.
Qed.

Lemma unit_word_not_space (c : N) :
  CodeUnits.isWord c = true -> CodeUnits.isSpace c = false.
Proof.
  intros Hw. apply unit_word_spec in Hw. apply not_true_iff_false.
  intros Hs. apply unit_space_spec in Hs. lia.
Qed.

Lemma unit_separator_join (c : N) :
  CodeUnits.noBracketHyphen c = true -> CodeUnits.isSpace c = false ->
  CodeUnits.isSeparator c = false.
Proof.
  unfold CodeUnits.noBracketHyphen, CodeUnits.isSeparator.
  rewrite negb_true_iff. now intros -> ->.
Qed.

Lemma forallb_impl (p q : N -> bool) (s : list N) :
  (forall c, p c = true -> q c = true) ->
  forallb p s = true -> forallb q s = true.
Proof.
  intros Hpq. rewrite !forallb_forall. auto.
Qed.

Lemma removeUnits_none (p : N -> bool) (s : list N) :
  forallb (fun c => negb (p c)) s = true -> CodeUnits.removeUnits p s = s.
Proof.
  induction s as [|c r IH]; [reflexivity|].
  cbn [forallb CodeUnits.removeUnits]. rewrite andb_true_iff, negb_true_iff.
  intros [-> Hr]. now rewrite (IH Hr).
Qed.

Lemma map_fixed (f : N -> N) (p : N -> bool) (s : list N) :
  (forall c, p c = true -> f c = c) -> forallb p s = true -> map f s = s.
Proof.
  intros Hf. induction s as [|c r IH]; [reflexivity|].
  cbn [forallb map]. rewrite andb_true_iff. intros [Hc Hr].
  now rewrite (Hf c Hc), (IH Hr).
Qed.

Lemma list_pair_ind (P : list N -> Prop) :
  P [] ->
  (forall c, P [c]) ->
  (forall c d r, P r -> P (d :: r) -> P (c :: d :: r)) ->
  forall s, P s.
Proof.
  intros H0 H1 H2.
  assert (H : forall s, P s /\ forall c, P (c :: s)).
  { induction s as [|d r [IHr IHc]].
    - split; [exact H0 | exact H1].
    - split; [apply IHc | intros c; apply H2; [exact IHr | apply IHc]]. }
  intros s. apply H.
Qed.

Section ToPascalCaseOnCodeUnits.

(** The case table, and what the proofs use of it: upper-casing the first
    code unit of an upper-cased code unit changes nothing; upper-casing a
    code unit that is no separator gives no separator; the ASCII lowercase
    letters have the ASCII capitals as their upper case. *)
Variable toUpperCase : N -> list N.

Hypothesis toUpperCase_stable :
  forall c, exists d rest, toUpperCase c = d :: rest /\ toUpperCase d = [d].

Hypothesis toUpperCase_no_separator :
  forall c, CodeUnits.isSeparator c = false ->
            CodeUnits.isCompact (toUpperCase c) = true.

Hypothesis toUpperCase_ascii :
  forall c, (97 <= c <= 122)%N -> toUpperCase c = [(c - 32)%N].

Lemma units_capitalizeWords_cons (b : bool) (c : N) (r : list N) :
  CodeUnits.capitalizeWords toUpperCase b (c :: r)
  = if b && CodeUnits.isWord c then
      toUpperCase c ++ CodeUnits.capitalizeWords toUpperCase false r
    else if CodeUnits.isSpace c then
      match r with
      | d :: r' =>
          if CodeUnits.isWord d then
            toUpperCase d ++ CodeUnits.capitalizeWords toUpperCase false r'
          else c :: CodeUnits.capitalizeWords toUpperCase false r
      | [] => [c]
      end
    else c :: CodeUnits.capitalizeWords toUpperCase false r.
Proof. reflexivity. Qed.

Lemma units_capitalizeWords_compact (s : list N) :
  CodeUnits.isCompact s = true ->
  CodeUnits.capitalizeWords toUpperCase false s = s.
Proof.
  induction s as [|c r IH]; [reflexivity|].
  unfold CodeUnits.isCompact. cbn [forallb].
  rewrite andb_true_iff, negb_true_iff. intros [Hc Hr].
  rewrite units_capitalizeWords_cons. cbn [andb].
  destruct (unit_separator_parts c Hc) as [_ [_ ->]]. now rewrite (IH Hr).
Qed.

Lemma units_compact_no_space (s : list N) :
  CodeUnits.isCompact s = true ->
  forallb (fun c => negb (CodeUnits.isSpace c)) s = true.
Proof.
  apply forallb_impl. intros c. rewrite !negb_true_iff. intros Hc.
  now destruct (unit_separator_parts c Hc) as [_ [_ ->]].
Qed.

Lemma units_compact_app (a b : list N) :
  CodeUnits.isCompact (a ++ b) = CodeUnits.isCompact a && CodeUnits.isCompact b.
Proof. unfold CodeUnits.isCompact. apply forallb_app. Qed.

(** On a compact string [toPascalCase] upper-cases the first code unit and
    does nothing else. *)
Lemma units_toPascalCase_compact (s : list N) :
  CodeUnits.isCompact s = true ->
  CodeUnits.toPascalCase toUpperCase s = CodeUnits.capitalizeFirst toUpperCase s.
Proof.
  intros Hs. unfold CodeUnits.toPascalCase.
  rewrite (removeUnits_none CodeUnits.isBracket s).
  2:{ revert Hs. apply forallb_impl. intros c. rewrite !negb_true_iff. intros Hc.
      now destruct (unit_separator_parts c Hc) as [-> _]. }
  rewrite (map_fixed _ (fun c => negb (CodeUnits.isSeparator c)) s); [| |exact Hs].
  2:{ intros c. rewrite negb_true_iff. intros Hc.
      now destruct (unit_separator_parts c Hc) as [_ [-> _]]. }
  destruct s as [|c r]; [reflexivity|].
  unfold CodeUnits.isCompact in Hs. cbn [forallb] in Hs.
  apply andb_true_iff in Hs as [Hc Hr]. apply negb_true_iff in Hc.
  destruct (unit_separator_parts c Hc) as [_ [_ Hspace]].
  rewrite units_capitalizeWords_cons. cbn [andb CodeUnits.capitalizeFirst].
  rewrite (units_capitalizeWords_compact r Hr).
  destruct (toUpperCase_stable c) as [d [rest [Hup Hd]]].
  pose proof (toUpperCase_no_separator c Hc) as Hupc.
  destruct (CodeUnits.isWord c).
  - rewrite removeUnits_none.
    2:{ apply units_compact_no_space. now rewrite units_compact_app, Hupc. }
    rewrite Hup in Hupc |- *. cbn [app CodeUnits.replaceFirstChar].
    unfold CodeUnits.isCompact in Hupc. cbn [forallb] in Hupc.
    apply andb_true_iff in Hupc as [Hdsep _]. apply negb_true_iff in Hdsep.
    destruct (unit_separator_parts d Hdsep) as [_ [_ Hdspace]].
    rewrite (unit_line_terminator_space d Hdspace). now rewrite Hd.
  - rewrite Hspace, removeUnits_none.
    2:{ apply (units_compact_no_space (c :: r)).
        unfold CodeUnits.isCompact. cbn [forallb]. now rewrite Hc. }
    cbn [CodeUnits.replaceFirstChar].
    now rewrite (unit_line_terminator_space c Hspace).
Qed.

Lemma units_cleaned (s : list N) :
  forallb CodeUnits.noBracketHyphen
    (map (fun c => if CodeUnits.isHyphenOrUnderscore c then 32%N else c)
       (CodeUnits.removeUnits CodeUnits.isBracket s)) = true.
Proof.
  induction s as [|c r IH]; [reflexivity|].
  cbn [CodeUnits.removeUnits]. destruct (CodeUnits.isBracket c) eqn:Hb; [exact IH|].
  cbn [map forallb]. rewrite IH, andb_true_r.
  destruct (CodeUnits.isHyphenOrUnderscore c) eqn:Hh; [reflexivity|].
  unfold CodeUnits.noBracketHyphen. now rewrite Hb, Hh.
Qed.

Lemma units_upper_word (d : N) :
  CodeUnits.noBracketHyphen d = true -> CodeUnits.isWord d = true ->
  forallb CodeUnits.noBracketHyphen (toUpperCase d) = true
  /\ forallb (fun c => negb (CodeUnits.isSpace c)) (toUpperCase d) = true.
Proof.
  intros Hd Hw.
  pose proof (toUpperCase_no_separator d
                (unit_separator_join d Hd (unit_word_not_space d Hw))) as H.
  split; [|now apply units_compact_no_space].
  revert H. apply forallb_impl. intros c. rewrite negb_true_iff. intros Hc.
  destruct (unit_separator_parts c Hc) as [Hb [Hh _]].
  unfold CodeUnits.noBracketHyphen. now rewrite Hb, Hh.
Qed.

Lemma units_capitalizeWords_clean (s : list N) :
  forall b, forallb CodeUnits.noBracketHyphen s = true ->
            forallb CodeUnits.noBracketHyphen
              (CodeUnits.capitalizeWords toUpperCase b s) = true.
Proof.
  induction s as [|c|c d r IHr IHd] using list_pair_ind; intros b.
  - reflexivity.
  - cbn [forallb]. rewrite andb_true_r. intros Hc.
    rewrite units_capitalizeWords_cons. destruct (b && CodeUnits.isWord c) eqn:Hb.
    + apply andb_true_iff in Hb as [_ Hw]. cbn [CodeUnits.capitalizeWords].
      rewrite app_nil_r. now apply units_upper_word.
    + destruct (CodeUnits.isSpace c); cbn [CodeUnits.capitalizeWords forallb];
        now rewrite Hc.
  - intros H. pose proof H as H'. cbn [forallb] in H'.
    apply andb_true_iff in H' as [Hc Hdr]. pose proof Hdr as Hdr'.
    cbn [forallb] in Hdr'. apply andb_true_iff in Hdr' as [Hd Hr].
    rewrite units_capitalizeWords_cons. destruct (b && CodeUnits.isWord c) eqn:Hb.
    + apply andb_true_iff in Hb as [_ Hw]. rewrite forallb_app.
      now rewrite (proj1 (units_upper_word c Hc Hw)), (IHd false Hdr).
    + destruct (CodeUnits.isSpace c).
      * destruct (CodeUnits.isWord d) eqn:Hw.
        -- rewrite forallb_app.
           now rewrite (proj1 (units_upper_word d Hd Hw)), (IHr false Hr).
        -- cbn [forallb]. now rewrite Hc, (IHd false Hdr).
      * cbn [forallb]. now rewrite Hc, (IHd false Hdr).
Qed.

Lemma units_compact_removeSpaces (s : list N) :
  forallb CodeUnits.noBracketHyphen s = true ->
  CodeUnits.isCompact (CodeUnits.removeUnits CodeUnits.isSpace s) = true.
Proof.
  unfold CodeUnits.isCompact. induction s as [|c r IH]; [reflexivity|].
  cbn [forallb CodeUnits.removeUnits]. rewrite andb_true_iff. intros [Hc Hr].
  destruct (CodeUnits.isSpace c) eqn:Hs; [now apply IH|].
  cbn [forallb]. now rewrite (unit_separator_join c Hc Hs), (IH Hr).
Qed.

(** The result of [toPascalCase] is compact and capitalized, for every
    input. *)
Lemma units_toPascalCase_normal (s : list N) :
  CodeUnits.isCompact (CodeUnits.toPascalCase toUpperCase s) = true
  /\ CodeUnits.isCapitalized toUpperCase (CodeUnits.toPascalCase toUpperCase s).
Proof.
  unfold CodeUnits.toPascalCase.
  pose proof (units_compact_removeSpaces _
    (units_capitalizeWords_clean _ true (units_cleaned s))) as H.
  destruct (CodeUnits.removeUnits CodeUnits.isSpace _) as [|c r];
    [split; [reflexivity | exact I]|].
  unfold CodeUnits.isCompact in H. cbn [forallb] in H.
  apply andb_true_iff in H as [Hc Hr]. apply negb_true_iff in Hc.
  destruct (unit_separator_parts c Hc) as [_ [_ Hspace]].
  cbn [CodeUnits.replaceFirstChar]. rewrite (unit_line_terminator_space c Hspace).
  split.
  - rewrite units_compact_app, (toUpperCase_no_separator c Hc). exact Hr.
  - destruct (toUpperCase_stable c) as [d [rest [-> Hd]]]. exact Hd.
Qed.

(** C6: on every string [toPascalCase] applied twice is [toPascalCase]
    applied once; it leaves a compact, capitalized string as it is; and on
    a string of lowercase letters it puts the first one in upper case and
    changes nothing else. *)
Theorem toPascalCase_idempotent (s : list N) :
  CodeUnits.toPascalCase toUpperCase (CodeUnits.toPascalCase toUpperCase s)
  = CodeUnits.toPascalCase toUpperCase s
  /\ (CodeUnits.isCompact s = true -> CodeUnits.isCapitalized toUpperCase s ->
      CodeUnits.toPascalCase toUpperCase s = s)
  /\ (forall c r,
        s = c :: r ->
        forallb (fun x => (97 <=? x) && (x <=? 122))%N s = true ->
        CodeUnits.toPascalCase toUpperCase s = (c - 32)%N :: r).
Proof.
  assert (Hnoop : forall t, CodeUnits.isCompact t = true ->
                            CodeUnits.isCapitalized toUpperCase t ->
                            CodeUnits.toPascalCase toUpperCase t = t).
  { intros t Hc Hu. rewrite (units_toPascalCase_compact t Hc).
    destruct t as [|c r]; [reflexivity|].
    cbn [CodeUnits.isCapitalized CodeUnits.capitalizeFirst] in *. now rewrite Hu. }
  split; [|split].
  - destruct (units_toPascalCase_normal s) as [Hc Hu]. now apply Hnoop.
  - apply Hnoop.
  - intros c r -> Hl. rewrite units_toPascalCase_compact.
    + cbn [CodeUnits.capitalizeFirst]. rewrite toUpperCase_ascii; [reflexivity|].
      cbn [forallb] in Hl. apply andb_true_iff in Hl as [Hc _].
      apply andb_true_iff in Hc as [H1 H2].
      apply N.leb_le in H1, H2. lia.
    + revert Hl. apply forallb_impl. intros x Hx.
      apply andb_true_iff in Hx as [H1 H2]. apply N.leb_le in H1, H2.
      apply negb_true_iff, not_true_iff_false. intros Hsep.
      unfold CodeUnits.isSeparator, CodeUnits.isBracket,
        CodeUnits.isHyphenOrUnderscore in Hsep.
      rewrite !orb_true_iff, !N.eqb_eq, unit_space_spec in Hsep. lia.
Qed.

End ToPascalCaseOnCodeUnits.

(** *** The two readings on ASCII strings *)

Lemma isAscii_bracket (c : ascii) :
  CodeUnits.isBracket (code c) = isBracket c.
Proof. ascii_cases c. Qed.

Lemma isAscii_hyphen (c : ascii) :
  CodeUnits.isHyphenOrUnderscore (code c) = isHyphenOrUnderscore c.
Proof. ascii_cases c. Qed.

Lemma isAscii_word (c : ascii) : CodeUnits.isWord (code c) = isWord c.
Proof. ascii_cases c. Qed.

Lemma isAscii_line_terminator (c : ascii) :
  CodeUnits.isLineTerminator (code c) = isLineTerminator c.
Proof. ascii_cases c. Qed.

Lemma isAscii_space (c : ascii) :
  isAscii c = true -> CodeUnits.isSpace (code c) = isSpace c.
Proof. ascii_cases c. Qed.

Lemma isAscii_upperChar (c : ascii) :
  isAscii c = true -> isAscii (upperChar c) = true.
Proof. ascii_cases c. Qed.

Lemma isAscii_code (c : ascii) : isAscii c = true -> (code c < 128)%N.
Proof. unfold isAscii. apply N.ltb_lt. Qed.

Lemma units_append (a b : string) : units (a +:+ b) = units a ++ units b.
Proof.
  induction a as [|c a IH]; [reflexivity|].
  rewrite append_cons. cbn [units app]. now rewrite IH.
Qed.

Lemma units_removeChars (p : ascii -> bool) (q : N -> bool) (s : string) :
  (forall c, isAscii c = true -> q (code c) = p c) ->
  isAsciiString s = true ->
  units (removeChars p s) = CodeUnits.removeUnits q (units s).
Proof.
  intros Hpq. unfold isAsciiString. induction s as [|c r IH]; [reflexivity|].
  cbn [allChars removeChars units CodeUnits.removeUnits].
  rewrite andb_true_iff. intros [Hc Hr]. rewrite (Hpq c Hc).
  destruct (p c); cbn [units]; now rewrite (IH Hr).
Qed.

Lemma isAsciiString_removeChars (p : ascii -> bool) (s : string) :
  isAsciiString s = true -> isAsciiString (removeChars p s) = true.
Proof.
  unfold isAsciiString. induction s as [|c r IH]; [reflexivity|].
  cbn [allChars removeChars]. rewrite andb_true_iff. intros [Hc Hr].
  destruct (p c); cbn [allChars]; [|rewrite Hc]; now apply IH.
Qed.

Section AsciiReading.

(** A case table that is the ASCII one on the ASCII code units. *)
Variable toUpperCase : N -> list N.

Hypothesis toUpperCase_on_ascii :
  forall c, isAscii c = true -> toUpperCase (code c) = [code (upperChar c)].

Lemma units_capitalizeWords (s : string) :
  forall b,
    isAsciiString s = true ->
    units (capitalizeWords b s)
    = CodeUnits.capitalizeWords toUpperCase b (units s)
    /\ isAsciiString (capitalizeWords b s) = true.
Proof.
  unfold isAsciiString.
  induction s as [|c|c d r IHr IHd] using string_pair_ind; intros b.
  - now split.
  - cbn [allChars]. rewrite andb_true_r. intros Hc.
    rewrite capitalizeWords_cons. cbn [units].
    rewrite units_capitalizeWords_cons, isAscii_word, (isAscii_space c Hc).
    destruct (b && isWord c).
    + cbn [capitalizeWords CodeUnits.capitalizeWords units allChars].
      rewrite (toUpperCase_on_ascii c Hc), (isAscii_upperChar c Hc). now split.
    + destruct (isSpace c); cbn [capitalizeWords CodeUnits.capitalizeWords units
                                  allChars]; rewrite Hc; now split.
  - intros H. pose proof H as H'. cbn [allChars] in H'.
    apply andb_true_iff in H' as [Hc Hdr]. pose proof Hdr as Hdr'.
    cbn [allChars] in Hdr'. apply andb_true_iff in Hdr' as [Hd Hr].
    destruct (IHd false Hdr) as [Ed Ad]. destruct (IHr false Hr) as [Er Ar].
    rewrite capitalizeWords_cons.
    change (units (String c (String d r))) with (code c :: units (String d r)).
    rewrite units_capitalizeWords_cons, isAscii_word, (isAscii_space c Hc).
    destruct (b && isWord c).
    + cbn [units allChars].
      rewrite (toUpperCase_on_ascii c Hc), (isAscii_upperChar c Hc), Ed, Ad.
      now split.
    + destruct (isSpace c).
      * cbn [units]. rewrite isAscii_word. destruct (isWord d).
        -- cbn [units allChars].
           rewrite (toUpperCase_on_ascii d Hd), (isAscii_upperChar d Hd), Er, Ar.
           now split.
        -- cbn [units allChars]. change (code d :: units r) with (units (String d r)).
           rewrite Ed, Hc, Ad. now split.
      * cbn [units allChars]. rewrite Ed, Hc, Ad. now split.
Qed.

(** Where the case table is the ASCII one on ASCII code units, the two
    readings of [toPascalCase] are one on the strings of ASCII code
    units. *)
Lemma units_toPascalCase (s : string) :
  isAsciiString s = true ->
  units (toPascalCase s) = CodeUnits.toPascalCase toUpperCase (units s).
Proof.
  intros Hs. unfold toPascalCase, CodeUnits.toPascalCase.
  pose proof (isAsciiString_removeChars isBracket s Hs) as H1.
  assert (H2 : isAsciiString
                 (mapChars (fun c => if isHyphenOrUnderscore c then " "%char else c)
                    (removeChars isBracket s)) = true
               /\ units (mapChars
                          (fun c => if isHyphenOrUnderscore c then " "%char else c)
                          (removeChars isBracket s))
                  = map (fun c => if CodeUnits.isHyphenOrUnderscore c then 32%N else c)
                      (units (removeChars isBracket s))).
  { revert H1. generalize (removeChars isBracket s). unfold isAsciiString.
    induction s0 as [|c r IH]; [now split|].
    cbn [allChars mapChars units map]. rewrite andb_true_iff. intros [Hc Hr].
    destruct (IH Hr) as [Ha Hu]. rewrite Ha, Hu, isAscii_hyphen.
    destruct (isHyphenOrUnderscore c); [now split | rewrite Hc; now split]. }
  destruct H2 as [H2 E2].
  destruct (units_capitalizeWords _ true H2) as [E3 H3].
  pose proof (isAsciiString_removeChars isSpace _ H3) as H4.
  rewrite <- (units_removeChars isBracket CodeUnits.isBracket s)
    by (auto using isAscii_bracket).
  rewrite <- E2, <- E3.
  rewrite <- (units_removeChars isSpace CodeUnits.isSpace)
    by (auto using isAscii_space).
  destruct (removeChars isSpace _) as [|c r]; [reflexivity|].
  cbn [replaceFirstChar CodeUnits.replaceFirstChar units].
  rewrite isAscii_line_terminator.
  destruct (isLineTerminator c); [reflexivity|].
  unfold isAsciiString in H4. cbn [allChars] in H4.
  apply andb_true_iff in H4 as [Hc _].
  now rewrite (toUpperCase_on_ascii c Hc).
Qed.

End AsciiReading.

Lemma sampleUpperCase_stable (c : N) :
  exists d rest,
    CodeUnits.sampleUpperCase c = d :: rest /\ CodeUnits.sampleUpperCase d = [d].
Proof.
  unfold CodeUnits.sampleUpperCase.
  destruct ((97 <=? c) && (c <=? 122))%N eqn:Hlower.
  - apply andb_true_iff in Hlower as [H1 H2]. apply N.leb_le in H1, H2.
    exists (c - 32)%N, []. split; [reflexivity|].
    replace ((97 <=? c - 32) && (c - 32 <=? 122))%N with false
      by (symmetry; apply andb_false_iff; left; apply N.leb_gt; lia).
    replace (c - 32 =? 233)%N with false by (symmetry; apply N.eqb_neq; lia).
    now replace (c - 32 =? 223)%N with false by (symmetry; apply N.eqb_neq; lia).
  - destruct (N.eqb_spec c 233) as [->|H233]; [exists 201%N, []; now split|].
    destruct (N.eqb_spec c 223) as [->|H223]; [exists 83%N, [83%N]; now split|].
    exists c, []. split; [reflexivity|]. rewrite Hlower.
    apply N.eqb_neq in H233, H223. now rewrite H233, H223.
Qed.

Lemma sampleUpperCase_no_separator (c : N) :
  CodeUnits.isSeparator c = false ->
  CodeUnits.isCompact (CodeUnits.sampleUpperCase c) = true.
Proof.
  intros Hc. unfold CodeUnits.sampleUpperCase.
  destruct ((97 <=? c) && (c <=? 122))%N eqn:Hlower.
  - apply andb_true_iff in Hlower as [H1 H2]. apply N.leb_le in H1, H2.
    unfold CodeUnits.isCompact. cbn [forallb]. rewrite andb_true_r.
    apply negb_true_iff, not_true_iff_false. intros Hsep.
    unfold CodeUnits.isSeparator, CodeUnits.isBracket,
      CodeUnits.isHyphenOrUnderscore in Hsep.
    rewrite !orb_true_iff, !N.eqb_eq, unit_space_spec in Hsep. lia.
  - destruct (c =? 233)%N; [reflexivity|]. destruct (c =? 223)%N; [reflexivity|].
    unfold CodeUnits.isCompact. cbn [forallb]. now rewrite Hc.
Qed.

Lemma sampleUpperCase_ascii (c : N) :
  (97 <= c <= 122)%N -> CodeUnits.sampleUpperCase c = [(c - 32)%N].
Proof.
  intros [H1 H2]. unfold CodeUnits.sampleUpperCase.
  apply N.leb_le in H1, H2. now rewrite H1, H2.
Qed.

(** With the sample of the case table: [user-Profile_[card]] twice and
    once; [UserCard] and the accented [Elan] stay; [users] and the sharp s
    get their capitals, twice as once. *)
Lemma toPascalCase_idempotent_witness :
  let up := CodeUnits.sampleUpperCase in
  let userProfileCard :=
    map N_of_ascii (list_ascii_of_string "user-Profile_[card]") in
  CodeUnits.toPascalCase up (CodeUnits.toPascalCase up userProfileCard)
  = CodeUnits.toPascalCase up userProfileCard
  /\ CodeUnits.toPascalCase up userProfileCard
     = map N_of_ascii (list_ascii_of_string "UserProfileCard")
  /\ CodeUnits.toPascalCase up (map N_of_ascii (list_ascii_of_string "UserCard"))
     = map N_of_ascii (list_ascii_of_string "UserCard")
  /\ CodeUnits.toPascalCase up [201; 108; 97; 110]%N = [201; 108; 97; 110]%N
  /\ CodeUnits.toPascalCase up (map N_of_ascii (list_ascii_of_string "users"))
     = map N_of_ascii (list_ascii_of_string "Users")
  /\ CodeUnits.toPascalCase up (CodeUnits.toPascalCase up [223; 97]%N)
     = CodeUnits.toPascalCase up [223; 97]%N
  /\ CodeUnits.toPascalCase up [223; 97]%N = [83; 83; 97]%N
  /\ CodeUnits.toPascalCase up [233; 108; 97; 110]%N = [201; 108; 97; 110]%N.
Proof.
  cbv zeta.
  pose proof (toPascalCase_idempotent CodeUnits.sampleUpperCase
                sampleUpperCase_stable sampleUpperCase_no_separator
                sampleUpperCase_ascii) as H.
  split; [exact (proj1 (H (map N_of_ascii
                              (list_ascii_of_string "user-Profile_[card]"))))|].
  split; [reflexivity|].
  split; [exact (proj1 (proj2 (H (map N_of_ascii (list_ascii_of_string "UserCard"))))
                   eq_refl eq_refl)|].
  split; [exact (proj1 (proj2 (H [201; 108; 97; 110]%N)) eq_refl eq_refl)|].
  split; [exact (proj2 (proj2 (H (map N_of_ascii (list_ascii_of_string "users"))))
                   117%N (map N_of_ascii (list_ascii_of_string "sers"))
                   eq_refl eq_refl)|].
  split; [exact (proj1 (H [223; 97]%N))|].
  split; reflexivity.
Defined.

(** ** [extractPathInfo] *)

Lemma arrayIncludes_In (arr : list string) (x : string) :
  arrayIncludes arr x = true <-> In x arr.
Proof.
  unfold arrayIncludes. rewrite existsb_exists. split.
  - intros [y [Hy Heq]]. apply String.eqb_eq in Heq. now subst.
  - intros H. exists x. split; [exact H | apply String.eqb_refl].
Qed.

Lemma arrayIncludes_not_In (arr : list string) (x : string) :
  arrayIncludes arr x = false <-> ~ In x arr.
Proof.
  rewrite <- arrayIncludes_In. now destruct (arrayIncludes arr x).
Qed.

Lemma split_not_empty (sep : ascii) (s : string) : split sep s <> [].
Proof.
  destruct s as [|c r]; [discriminate|].
  cbn [split]. destruct (c =? sep)%char; [discriminate|].
  destruct (split sep r); discriminate.
Qed.

Lemma at_last (front : list string) (x : string) :
  at_ (front ++ [x]) (length (front ++ [x]) - 1) = x.
Proof.
  unfold at_. rewrite length_app. cbn [length].
  replace (length front + 1 - 1) with (length front) by lia.
  rewrite app_nth2 by lia. now rewrite Nat.sub_diag.
Qed.

Lemma at_before_last (front : list string) (x y : string) :
  at_ (front ++ [x; y]) (length (front ++ [x; y]) - 2) = x.
Proof.
  unfold at_. rewrite length_app. cbn [length].
  replace (length front + 2 - 2) with (length front) by lia.
  rewrite app_nth2 by lia. now rewrite Nat.sub_diag.
Qed.

Lemma pickDir_single (skip : list string) (only : string) :
  pickDir skip [only] = only.
Proof.
  unfold pickDir. cbn [length Nat.sub Nat.ltb Nat.leb at_ nth].
  now rewrite andb_false_r.
Qed.

Lemma pickDir_two (skip front : list string) (prev last : string) :
  pickDir skip (front ++ [prev; last])
  = if arrayIncludes skip last then prev else last.
Proof.
  unfold pickDir. rewrite at_before_last.
  change (front ++ [prev; last]) with (front ++ [prev] ++ [last]).
  rewrite app_assoc, at_last.
  assert (H : (1 <? length ((front ++ [prev]) ++ [last])) = true).
  { apply Nat.ltb_lt. rewrite !length_app. cbn [length]. lia. }
  now rewrite H, andb_true_r.
Qed.

Lemma dirName_extractPathInfo (p : string) (options : PathOptions) :
  dirName (extractPathInfo p options)
  = removeChars isBracket (pickDir (effectiveSkipDirs options) (dirSegments p)).
Proof. reflexivity. Qed.

Lemma dirSegments_absolute (p : string) :
  startsWith p "/" = true ->
  exists rest, dirSegments p = "" :: rest /\ rest <> [].
Proof.
  intros Habs. unfold dirSegments, NodePath.parse. rewrite Habs.
  assert (Hroot : exists rest, split NodePath.sep "/" = "" :: rest /\ rest <> []).
  { exists [""]. split; [reflexivity | discriminate]. }
  destruct (NodePath.lastPart _) as [[before b]|]; [|exact Hroot].
  destruct before as [|d before]; [exact Hroot|].
  cbn [NodePath.dir]. exists (split NodePath.sep (join "/" (d :: before))).
  split; [reflexivity | apply split_not_empty].
Qed.

(** C4, as the specification words it, with the directories a path names
    as its segments: [/src/User.gql] names the one directory [src], and
    yet [src] is replaced, by the empty piece that the split leaves before
    the root. *)
Lemma extractPathInfo_directory_under_root :
  ~ (forall p options only,
        directoryNames p = [only] ->
        dirName (extractPathInfo p options) = removeChars isBracket only).
Proof.
  intros H. specialize (H "/src/User.gql" noOptions "src" eq_refl).
  vm_compute in H. discriminate.
Qed.

(** C4, amended: the segments are the pieces of the directory portion
    split at the separator, so that an absolute path has an empty first
    piece and never fewer than two pieces.  When the last piece is
    literally in the skip set and another one precedes it, the directory
    candidate is that preceding piece, whether or not it is in the skip set
    too: there is no second look.  A directory portion of one piece, which
    only a relative path has, keeps that piece, in the skip set or not.
    The candidate is returned with its brackets removed. *)
Theorem extractPathInfo_skip_once (p : string) (options : PathOptions) :
  (forall front prev last,
      dirSegments p = front ++ [prev; last] ->
      In last (effectiveSkipDirs options) ->
      pickDir (effectiveSkipDirs options) (dirSegments p) = prev
      /\ dirName (extractPathInfo p options) = removeChars isBracket prev)
  /\ (forall only,
        dirSegments p = [only] ->
        startsWith p "/" = false
        /\ pickDir (effectiveSkipDirs options) (dirSegments p) = only
        /\ dirName (extractPathInfo p options) = removeChars isBracket only)
  /\ (forall front last,
        dirSegments p = front ++ [last] ->
        ~ In last (effectiveSkipDirs options) ->
        dirName (extractPathInfo p options) = removeChars isBracket last)
  /\ (startsWith p "/" = true ->
      exists rest, dirSegments p = "" :: rest /\ rest <> [])
  /\ (forall only,
        dirSegments p = [""; only] ->
        In only (effectiveSkipDirs options) ->
        dirName (extractPathInfo p options) = "").
Proof.
  rewrite dirName_extractPathInfo. split; [|split; [|split; [|split]]].
  - intros front prev last -> Hin. rewrite pickDir_two.
    apply arrayIncludes_In in Hin. rewrite Hin. now split.
  - intros only Honly. split.
    + destruct (startsWith p "/") eqn:Habs; [|reflexivity].
      destruct (dirSegments_absolute p Habs) as [rest [Hrest Hne]].
      rewrite Honly in Hrest. injection Hrest as _ <-. now elim Hne.
    + rewrite Honly, pickDir_single. now split.
  - intros front last -> Hout. apply arrayIncludes_not_In in Hout.
    destruct front as [|a front] using rev_ind.
    + cbn [app]. now rewrite pickDir_single.
    + rewrite <- app_assoc. cbn [app]. now rewrite pickDir_two, Hout.
  - apply dirSegments_absolute.
  - intros only -> Hin. apply arrayIncludes_In in Hin.
    rewrite (pickDir_two _ [] "" only). cbn [app]. now rewrite Hin.
Qed.

(** [queries] is skipped in favour of [graphql], which stays although it
    is in the default set as well; [src] alone, in a relative path, stays;
    under the root it gives way to the empty piece. *)
Lemma extractPathInfo_skip_once_witness :
  dirName (extractPathInfo "features/graphql/queries/User.gql" noOptions) = "graphql"
  /\ dirName (extractPathInfo "src/User.gql" noOptions) = "src"
  /\ dirName (extractPathInfo "features/[id]/User.gql" noOptions) = "features"
  /\ dirName (extractPathInfo "features/users/User.gql" noOptions) = "users"
  /\ dirName (extractPathInfo "/src/User.gql" noOptions) = "".
Proof.
  split; [|split; [|split; [|split]]].
  - refine (proj2 (proj1 (extractPathInfo_skip_once
                            "features/graphql/queries/User.gql" noOptions)
                     ["features"] "graphql" "queries" eq_refl _)).
    apply arrayIncludes_In. reflexivity.
  - exact (proj2 (proj2 (proj1 (proj2 (extractPathInfo_skip_once "src/User.gql"
                                          noOptions))
                           "src" eq_refl))).
  - refine (proj2 (proj1 (extractPathInfo_skip_once "features/[id]/User.gql" noOptions)
                     [] "features" "[id]" eq_refl _)).
    apply arrayIncludes_In. reflexivity.
  - refine (proj1 (proj2 (proj2 (extractPathInfo_skip_once "features/users/User.gql"
                                   noOptions)))
              ["features"] "users" eq_refl _).
    apply arrayIncludes_not_In. reflexivity.
  - refine (proj2 (proj2 (proj2 (proj2 (extractPathInfo_skip_once "/src/User.gql"
                                          noOptions))))
              "src" eq_refl _).
    apply arrayIncludes_In. reflexivity.
Defined.

(** Every list of components is the list of directory segments of a
    path: the one that joins them, and a file name, with the separator. *)
Lemma split_component (s : string) :
  allChars (fun c => negb (c =? NodePath.sep)%char) s = true ->
  split NodePath.sep s = [s].
Proof.
  induction s as [|c r IH]; [reflexivity|].
  cbn [allChars split]. rewrite andb_true_iff, negb_true_iff.
  intros [-> Hr]. now rewrite (IH Hr).
Qed.

Lemma split_component_sep (s t : string) :
  allChars (fun c => negb (c =? NodePath.sep)%char) s = true ->
  split NodePath.sep (s +:+ String NodePath.sep t) = s :: split NodePath.sep t.
Proof.
  induction s as [|c r IH].
  - intros _. rewrite append_nil. cbn [split]. now rewrite Ascii.eqb_refl.
  - cbn [allChars]. rewrite andb_true_iff, negb_true_iff. intros [Hc Hr].
    rewrite append_cons. cbn [split]. now rewrite Hc, (IH Hr).
Qed.

Lemma isComponent_no_sep (s : string) :
  isComponent s = true ->
  allChars (fun c => negb (c =? NodePath.sep)%char) s = true.
Proof. unfold isComponent. rewrite andb_true_iff. tauto. Qed.

Lemma split_join (segs : list string) :
  segs <> [] -> Forall (fun s => isComponent s = true) segs ->
  split NodePath.sep (join "/" segs) = segs.
Proof.
  induction segs as [|s [|s' rest] IH]; intros Hne Hall.
  - now elim Hne.
  - cbn [join]. apply split_component, isComponent_no_sep.
    now inversion Hall.
  - inversion Hall as [|? ? Hs Hrest]; subst.
    change (join "/" (s :: s' :: rest))
      with (s +:+ String NodePath.sep (join "/" (s' :: rest))).
    rewrite split_component_sep by now apply isComponent_no_sep.
    rewrite IH; [reflexivity | discriminate | exact Hrest].
Qed.

Lemma lastPart_app (segs : list string) (file : string) :
  file <> "" -> NodePath.lastPart (segs ++ [file]) = Some (segs, file).
Proof.
  intros Hfile. induction segs as [|s segs IH].
  - cbn [app NodePath.lastPart]. apply String.eqb_neq in Hfile. now rewrite Hfile.
  - cbn [app NodePath.lastPart]. fold (segs ++ [file]). now rewrite IH.
Qed.

Lemma join_relative (s : string) (rest : list string) :
  isComponent s = true -> startsWith (join "/" (s :: rest)) "/" = false.
Proof.
  unfold isComponent, truthy. destruct s as [|c r]; [discriminate|].
  cbn [allChars]. rewrite !andb_true_iff.
  intros [_ [Hc _]]. apply negb_true_iff in Hc. unfold NodePath.sep in Hc.
  destruct rest; cbn [join]; rewrite ?append_cons; cbn [startsWith];
    rewrite Ascii.eqb_sym; now rewrite Hc.
Qed.

Lemma Forall_isComponent_app (segs : list string) (file : string) :
  Forall (fun s => isComponent s = true) segs -> isComponent file = true ->
  Forall (fun s => isComponent s = true) (segs ++ [file]).
Proof. intros Hs Hf. apply Forall_app. split; [exact Hs | now constructor]. Qed.

Lemma dirSegments_join (segs : list string) (file : string) :
  segs <> [] ->
  Forall (fun s => isComponent s = true) segs ->
  isComponent file = true ->
  dirSegments (join "/" (segs ++ [file])) = segs.
Proof.
  intros Hne Hsegs Hfile. unfold dirSegments, NodePath.parse.
  destruct segs as [|s rest]; [now elim Hne|].
  assert (Hs : isComponent s = true) by now inversion Hsegs.
  cbn [app]. rewrite (join_relative s (rest ++ [file]) Hs).
  change (s :: rest ++ [file]) with ((s :: rest) ++ [file]).
  rewrite split_join;
    [| now destruct rest | now apply Forall_isComponent_app].
  rewrite lastPart_app.
  2:{ intros ->. discriminate. }
  cbn [NodePath.dir]. rewrite append_nil. now apply split_join.
Qed.

(** The skip substitution on such a path, in closed form. *)
Lemma extractPathInfo_join (front : list string) (prev last file : string)
    (options : PathOptions) :
  Forall (fun s => isComponent s = true) (front ++ [prev; last]) ->
  isComponent file = true ->
  dirName (extractPathInfo (join "/" ((front ++ [prev; last]) ++ [file])) options)
  = removeChars isBracket
      (if arrayIncludes (effectiveSkipDirs options) last then prev else last).
Proof.
  intros Hsegs Hfile. rewrite dirName_extractPathInfo.
  rewrite dirSegments_join; [| now destruct front | exact Hsegs | exact Hfile].
  now rewrite pickDir_two.
Qed.

Lemma extractPathInfo_join_witness :
  dirName (extractPathInfo "features/users/components/UserCard.vue" noOptions)
  = "users".
Proof.
  apply (extractPathInfo_join ["features"] "users" "components" "UserCard.vue"
           noOptions).
  - repeat constructor.
  - reflexivity.
Defined.

(** ** [calculatePrefix] *)

Lemma length_append (a b : string) :
  String.length (a +:+ b) = String.length a + String.length b.
Proof.
  induction a as [|c a IH]; [reflexivity|].
  rewrite append_cons. cbn [String.length]. now rewrite IH.
Qed.

Lemma append_self_neq (s : string) : s <> "" -> s +:+ s <> s.
Proof.
  intros Hne Heq. apply (f_equal String.length) in Heq.
  rewrite length_append in Heq. destruct s; [now apply Hne | cbn in Heq; lia].
Qed.

(** C8: when the two normalized candidates are equal the prefix is that
    one string, which is not its own doubling unless it is empty; when
    they differ the prefix is the directory form followed by the file
    form. *)
Theorem calculatePrefix_no_duplication (p : string) (options : PathOptions) :
  (toPascalCase (dirName (extractPathInfo p options))
   = toPascalCase (fileName (extractPathInfo p options)) ->
   calculatePrefix p options = toPascalCase (dirName (extractPathInfo p options))
   /\ (toPascalCase (dirName (extractPathInfo p options)) <> "" ->
       calculatePrefix p options
       <> toPascalCase (dirName (extractPathInfo p options))
          +:+ toPascalCase (fileName (extractPathInfo p options))))
  /\ (toPascalCase (dirName (extractPathInfo p options))
      <> toPascalCase (fileName (extractPathInfo p options)) ->
      calculatePrefix p options
      = toPascalCase (dirName (extractPathInfo p options))
        +:+ toPascalCase (fileName (extractPathInfo p options))).
Proof.
  unfold calculatePrefix. cbv zeta.
  destruct (String.eqb_spec (toPascalCase (dirName (extractPathInfo p options)))
                            (toPascalCase (fileName (extractPathInfo p options))))
    as [Heq | Hne].
  - split; [|intros H; now elim H]. intros _. split; [reflexivity|].
    intros Hnonempty. rewrite <- Heq. intros H. symmetry in H.
    now apply append_self_neq in H.
  - split; [intros H; now elim Hne | reflexivity].
Qed.

Lemma calculatePrefix_no_duplication_witness :
  calculatePrefix "features/users/Users.vue" noOptions = "Users"
  /\ calculatePrefix "features/users/Users.vue" noOptions <> "UsersUsers"
  /\ calculatePrefix "features/users/components/UserCard.vue" noOptions
     = "UsersUserCard".
Proof.
  split; [|split].
  - exact (proj1 (proj1 (calculatePrefix_no_duplication
                           "features/users/Users.vue" noOptions) eq_refl)).
  - refine (proj2 (proj1 (calculatePrefix_no_duplication
                            "features/users/Users.vue" noOptions) eq_refl) _).
    discriminate.
  - refine (proj2 (calculatePrefix_no_duplication
                     "features/users/components/UserCard.vue" noOptions) _).
    discriminate.
Defined.

(** ** [calculatePrefixWithTypeName] *)

(** The function, case by case. *)
Lemma calculatePrefixWithTypeName_cases (p typeName : string) (options : PathOptions) :
  calculatePrefixWithTypeName p typeName options
  = let info := extractPathInfo p options in
    let pascalDir := toPascalCase (dirName info) in
    let pascalFile := toPascalCase (fileName info) in
    let meaningful :=
      truthy pascalDir
      && negb (arrayIncludes DEFAULT_SKIP_DIRS (toLowerCase (dirName info))) in
    match hasSignificantOverlap typeName (fileName info),
          (pascalDir =? pascalFile)%string, meaningful with
    | true, true, _ => ""
    | true, false, true => pascalDir
    | true, false, false => ""
    | false, true, _ => pascalDir
    | false, false, true => pascalDir +:+ pascalFile
    | false, false, false => pascalFile
    end.
Proof.
  unfold calculatePrefixWithTypeName. cbv zeta.
  destruct (hasSignificantOverlap _ _), (_ =? _)%string; try reflexivity;
    destruct (truthy _), (arrayIncludes _ _); reflexivity.
Qed.

Lemma lowerChar_idem (c : ascii) : lowerChar (lowerChar c) = lowerChar c.
Proof. ascii_cases c. Qed.

Lemma toLowerCase_idem (s : string) : toLowerCase (toLowerCase s) = toLowerCase s.
Proof.
  unfold toLowerCase. induction s as [|c r IH]; [reflexivity|].
  cbn [mapChars]. now rewrite lowerChar_idem, IH.
Qed.

Lemma caselessMember_default (d : string) :
  caselessMember d DEFAULT_SKIP_DIRS
  <-> arrayIncludes DEFAULT_SKIP_DIRS (toLowerCase d) = true.
Proof.
  rewrite arrayIncludes_In. split.
  - intros [e [Hin Heq]]. rewrite <- Heq.
    unfold DEFAULT_SKIP_DIRS in Hin |- *. cbn [In] in Hin.
    repeat (destruct Hin as [<- | Hin]; [vm_compute; tauto|]). contradiction.
  - intros Hin. exists (toLowerCase d). split; [exact Hin | apply toLowerCase_idem].
Qed.

Lemma toPascalCase_empty : toPascalCase "" = "".
Proof. reflexivity. Qed.

(** With the default skip set in force, that is, with no [skipDirs] given:
    when the type name overlaps the file candidate and the two normalized
    candidates differ, the prefix is the normalized directory if the
    directory candidate is non-empty and not in the skip set up to case,
    and empty otherwise. *)
Lemma calculatePrefixWithTypeName_overlap_default (p typeName : string)
    (options : PathOptions) :
  skipDirs options = None ->
  hasSignificantOverlap typeName (fileName (extractPathInfo p options)) = true ->
  toPascalCase (dirName (extractPathInfo p options))
  <> toPascalCase (fileName (extractPathInfo p options)) ->
  (dirName (extractPathInfo p options) <> ""
   /\ ~ caselessMember (dirName (extractPathInfo p options)) (effectiveSkipDirs options) ->
   calculatePrefixWithTypeName p typeName options
   = toPascalCase (dirName (extractPathInfo p options)))
  /\ (dirName (extractPathInfo p options) = ""
      \/ caselessMember (dirName (extractPathInfo p options)) (effectiveSkipDirs options) ->
      calculatePrefixWithTypeName p typeName options = "").
Proof.
  intros Hopt Hov Hne. unfold effectiveSkipDirs. rewrite Hopt.
  rewrite caselessMember_default, calculatePrefixWithTypeName_cases. cbv zeta.
  rewrite Hov. apply String.eqb_neq in Hne. rewrite Hne.
  destruct (arrayIncludes DEFAULT_SKIP_DIRS _) eqn:Hskip.
  - rewrite andb_false_r. split; [intros [_ H]; now elim H | reflexivity].
  - rewrite andb_true_r. unfold truthy.
    destruct (String.eqb_spec (toPascalCase (dirName (extractPathInfo p options))) "")
      as [He | He]; cbn [negb].
    + split; [now rewrite He | reflexivity].
    + split; [reflexivity|]. intros [Hd | Hs]; [|discriminate].
      elim He. now rewrite Hd.
Qed.

Lemma calculatePrefixWithTypeName_overlap_default_witness :
  calculatePrefixWithTypeName "/path/to/features/users/components/UserList.vue"
    "User" noOptions = "Users"
  /\ calculatePrefixWithTypeName "/path/to/src/queries/AssignmentMessages.gql"
       "AssignmentMessage" noOptions = "".
Proof.
  split.
  - refine (proj1 (calculatePrefixWithTypeName_overlap_default
                     "/path/to/features/users/components/UserList.vue" "User"
                     noOptions eq_refl eq_refl _) (conj _ _));
      [discriminate | discriminate |].
    intros H. apply caselessMember_default in H. discriminate.
  - refine (proj2 (calculatePrefixWithTypeName_overlap_default
                     "/path/to/src/queries/AssignmentMessages.gql"
                     "AssignmentMessage" noOptions eq_refl eq_refl _)
              (or_intror _)); [discriminate|].
    apply caselessMember_default. reflexivity.
Defined.

(** C1: the test that decides whether the directory is meaningful reads
    [DEFAULT_SKIP_DIRS], whatever skip set the caller gave.  At a rule
    configured as the README shows, [pages] is in the caller's set and
    [extractPathInfo] skipped [components] for it, yet the prefix is
    [Pages], not the empty string.  In the other direction a caller who
    leaves [src] out of the set still has it treated as skipped. *)
Theorem calculatePrefixWithTypeName_reads_default_set :
  let options := {| skipDirs := Some ["components"; "pages"; "[id]"] |} in
  let p := "app/pages/components/UserList.vue" in
  extractPathInfo p options = {| dirName := "pages"; fileName := "UserList" |}
  /\ hasSignificantOverlap "User" "UserList" = true
  /\ toPascalCase "pages" <> toPascalCase "UserList"
  /\ In "pages" (effectiveSkipDirs options)
  /\ calculatePrefixWithTypeName p "User" options = "Pages"
  /\ calculatePrefixWithTypeName "src/UserList.vue" "User"
       {| skipDirs := Some ["components"] |} = ""
  /\ ~ caselessMember "src" (effectiveSkipDirs {| skipDirs := Some ["components"] |}).
Proof.
  cbv zeta. repeat split; try reflexivity.
  - discriminate.
  - cbn. tauto.
  - intros [e [[<- | []] He]]. discriminate.
Qed.

(** C5, as the specification words it: the two normalized candidates are
    not equal at this path, so the conjunction does not hold. *)
Lemma scenario3_candidates_differ :
  let p := "src/queries/AssignmentMessages.gql" in
  let info := extractPathInfo p noOptions in
  ~ (hasSignificantOverlap "AssignmentMessage" (fileName info) = true
     /\ toPascalCase (dirName info) = toPascalCase (fileName info)
     /\ calculatePrefixWithTypeName p "AssignmentMessage" noOptions = ""
     /\ generateExpectedName
          (calculatePrefixWithTypeName p "AssignmentMessage" noOptions)
          "AssignmentMessage" = "AssignmentMessage").
Proof. cbv zeta. intros [_ [H _]]. vm_compute in H. discriminate. Qed.

(** C5, amended: the skip resolution replaces [queries] by [src]; the
    overlap test is true; the normalized candidates [Src] and
    [AssignmentMessages] differ; [src] is itself in the default skip set,
    so the prefix is empty and the expected name is the type name. *)
Theorem scenario3_empty_prefix :
  let p := "src/queries/AssignmentMessages.gql" in
  let info := extractPathInfo p noOptions in
  dirSegments p = ["src"; "queries"]
  /\ info = {| dirName := "src"; fileName := "AssignmentMessages" |}
  /\ hasSignificantOverlap "AssignmentMessage" (fileName info) = true
  /\ toPascalCase (dirName info) = "Src"
  /\ toPascalCase (fileName info) = "AssignmentMessages"
  /\ arrayIncludes DEFAULT_SKIP_DIRS (toLowerCase (dirName info)) = true
  /\ calculatePrefixWithTypeName p "AssignmentMessage" noOptions = ""
  /\ generateExpectedName
       (calculatePrefixWithTypeName p "AssignmentMessage" noOptions)
       "AssignmentMessage" = "AssignmentMessage".
Proof. cbv zeta. repeat split; reflexivity. Qed.

(** ** [getOperationTypeName] *)

Lemma GraphQLType_chain_ind (P : GraphQLType -> Prop) :
  (forall n, P (MkType n None)) ->
  (forall n inner, P inner -> P (MkType n (Some inner))) ->
  forall t, P t.
Proof.
  intros Hend Hstep. fix IH 1. intros [n [inner|]].
  - apply Hstep, IH.
  - apply Hend.
Qed.

Lemma unwrapLoop_endsAt (t : GraphQLType) : endsAt t (unwrapLoop t).
Proof.
  induction t as [n | n inner IH] using GraphQLType_chain_ind.
  - constructor.
  - cbn [unwrapLoop]. now constructor.
Qed.

Lemma endsAt_unwrapLoop (t last : GraphQLType) :
  endsAt t last -> last = unwrapLoop t.
Proof. induction 1 as [n | n inner last _ IH]; [reflexivity | exact IH]. Qed.

Lemma unwrapLoop_ofType (t : GraphQLType) : ofType (unwrapLoop t) = None.
Proof.
  induction t as [n | n inner IH] using GraphQLType_chain_ind;
    [reflexivity | exact IH].
Qed.

(** The function, with the reads that cannot fail resolved. *)
Lemma getOperationTypeName_cases (schema : GraphQLSchema)
    (operationType : OperationType) (firstFieldName : string) :
  getOperationTypeName schema operationType firstFieldName
  = Normal
      match rootTypeOf schema operationType with
      | None => None
      | Some rootType =>
          match getFields rootType !! firstFieldName with
          | None => None
          | Some field =>
              match type field with
              | None => None
              | Some t => name (unwrapLoop t)
              end
          end
      end.
Proof.
  unfold getOperationTypeName, rootTypeOf.
  destruct operationType;
    (match goal with |- context [falsy ?r] => destruct r as [rootType|] end;
     [|reflexivity]);
    cbn [falsy read bind];
    (destruct (getFields rootType !! firstFieldName) as [[[t|]]|];
     reflexivity).
Qed.

(** C3: [getOperationTypeName] never throws.  It returns [null] exactly
    when there is no root type for the operation kind, or the root type
    declares no field of that name, or the declared type of the field does
    not end in a reference that carries a name; otherwise it returns the
    name carried by the reference at the end of the chain. *)
Theorem getOperationTypeName_absent_or_terminal_name (schema : GraphQLSchema)
    (operationType : OperationType) (firstFieldName : string) :
  exists result,
    getOperationTypeName schema operationType firstFieldName = Normal result
    /\ (result = None
        <-> rootTypeOf schema operationType = None
            \/ (exists rootType,
                   rootTypeOf schema operationType = Some rootType
                   /\ getFields rootType !! firstFieldName = None)
            \/ (exists rootType field,
                   rootTypeOf schema operationType = Some rootType
                   /\ getFields rootType !! firstFieldName = Some field
                   /\ ~ exists n, endsInName field n))
    /\ (forall n,
          result = Some n
          <-> exists rootType field,
                rootTypeOf schema operationType = Some rootType
                /\ getFields rootType !! firstFieldName = Some field
                /\ endsInName field n).
Proof.
  eexists. split; [apply getOperationTypeName_cases|].
  destruct (rootTypeOf schema operationType) as [rootType|].
  2:{ split.
      - split; [now left | reflexivity].
      - intros n. split; [discriminate | intros (? & ? & ? & _); discriminate]. }
  destruct (getFields rootType !! firstFieldName) as [field|] eqn:Hfield.
  2:{ split.
      - split; [|reflexivity]. intros _. right. left. now exists rootType.
      - intros n. split; [discriminate|].
        intros (? & ? & [= <-] & ? & _). congruence. }
  assert (Hname : forall n,
             match type field with
             | Some t => name (unwrapLoop t)
             | None => None
             end = Some n <-> endsInName field n).
  { intros n. unfold endsInName. destruct (type field) as [t|].
    - split.
      + intros H. exists t, (unwrapLoop t). auto using unwrapLoop_endsAt.
      + intros (t' & last & [= <-] & Hend & Hn).
        now rewrite <- (endsAt_unwrapLoop _ _ Hend).
    - split; [discriminate | intros (? & ? & ? & _); discriminate]. }
  split.
  - split.
    + intros Hnone. right. right. exists rootType, field.
      split; [reflexivity | split; [exact Hfield|]].
      intros [n Hn]. apply Hname in Hn. congruence.
    + intros [? | [(? & ? & ?) | (rt & fld & [= <-] & Hf & Hno)]];
        try congruence.
      rewrite Hfield in Hf. injection Hf as <-.
      destruct (match type field with Some t => _ | None => _ end) as [n|] eqn:E;
        [|reflexivity].
      elim Hno. exists n. now apply Hname.
  - intros n. rewrite Hname. split.
    + intros H. now exists rootType, field.
    + intros (rt & fld & [= <-] & Hf & H).
      rewrite Hfield in Hf. now injection Hf as <-.
Qed.

(** ** [unwrapType] *)

(** On a type reference given as a tree the loop of [unwrapType] is a
    structural recursion: it returns, and what it returns is the end of
    the chain. *)
Lemma unwrapType_tree (t : GraphQLType) :
  unwrapType (Some t) = Normal (unwrapLoop t)
  /\ endsAt t (unwrapLoop t)
  /\ ofType (unwrapLoop t) = None.
Proof.
  split; [reflexivity | split; [apply unwrapLoop_endsAt | apply unwrapLoop_ofType]].
Qed.

Section StoreChains.

(** The store the loop runs in. *)
Variable h : gmap Store.ref Store.Obj.

Lemma chain_unwrapType (r : Store.ref)
    (l : list Store.ref) (last : Store.ref) :
  Store.chain h r l last ->
  forall fuel, length l < fuel -> Store.unwrapType fuel h r = Some (last, h).
Proof.
  induction 1 as [r Hend | r next l last Hnext _ IH]; intros fuel Hfuel.
  - destruct fuel as [|fuel]; [lia|]. cbn [Store.unwrapType]. now rewrite Hend.
  - destruct fuel as [|fuel]; [cbn [length] in Hfuel; lia|].
    cbn [Store.unwrapType]. rewrite Hnext. apply IH. cbn [length] in Hfuel. lia.
Qed.

Lemma unwrapType_chain (fuel : nat) :
  forall (r x : Store.ref) (h' : gmap Store.ref Store.Obj),
    Store.unwrapType fuel h r = Some (x, h') ->
    h' = h /\ exists l, Store.chain h r l x /\ length l < fuel.
Proof.
  induction fuel as [|fuel IH]; intros r x h'; [discriminate|].
  cbn [Store.unwrapType]. destruct (Store.readOfType h r) as [next|] eqn:Hr.
  - intros H. destruct (IH _ _ _ H) as [-> [l [Hc Hl]]].
    split; [reflexivity|]. exists (r :: l). split.
    + now apply Store.chain_step with next.
    + cbn [length]. lia.
  - intros [= <- <-]. split; [reflexivity|]. exists []. split.
    + now constructor.
    + cbn [length]. lia.
Qed.

Lemma chain_last_unwrapped (r : Store.ref)
    (l : list Store.ref) (last : Store.ref) :
  Store.chain h r l last -> Store.readOfType h last = None.
Proof. induction 1; assumption. Qed.

Lemma chain_all_wrapping (r : Store.ref)
    (l : list Store.ref) (last : Store.ref) :
  Store.chain h r l last ->
  Forall (fun x => Store.readOfType h x <> None) l.
Proof.
  induction 1 as [r Hend | r next l last Hnext _ IH]; constructor;
    [congruence | exact IH].
Qed.

Lemma chain_deterministic (r : Store.ref)
    (l1 l2 : list Store.ref) (last1 last2 : Store.ref) :
  Store.chain h r l1 last1 -> Store.chain h r l2 last2 ->
  l1 = l2 /\ last1 = last2.
Proof.
  intros H1. revert l2 last2.
  induction H1 as [r Hend | r next l last Hnext _ IH]; intros l2 last2 H2;
    inversion H2; subst; try congruence.
  - now split.
  - assert (next0 = next) as -> by congruence.
    destruct (IH _ _ H0) as [-> ->]. now split.
Qed.

Lemma chain_from_member (r : Store.ref)
    (l : list Store.ref) (last : Store.ref) :
  Store.chain h r l last ->
  forall x, In x l -> exists l', Store.chain h x l' last /\ length l' <= length l.
Proof.
  induction 1 as [r Hend | r next l last Hnext Hc IH]; intros x Hin.
  - destruct Hin.
  - destruct Hin as [<- | Hin].
    + exists (r :: l). split; [now apply Store.chain_step with next | lia].
    + destruct (IH x Hin) as [l' [Hc' Hl']]. exists l'. split; [exact Hc'|].
      cbn [length]. lia.
Qed.

(** A chain that ends visits no reference twice. *)
Lemma chain_acyclic (r : Store.ref)
    (l : list Store.ref) (last : Store.ref) :
  Store.chain h r l last -> List.NoDup (l ++ [last]).
Proof.
  induction 1 as [r Hend | r next l last Hnext Hc IH].
  - constructor; [intros [] | constructor].
  - cbn [app]. constructor; [|exact IH].
    intros Hin. apply in_app_or in Hin as [Hin | [<- | []]].
    + destruct (chain_from_member _ _ _ Hc r Hin) as [l' [Hc' Hl']].
      destruct (chain_deterministic _ _ _ _ _ Hc'
                  (Store.chain_step h r next l last Hnext Hc)) as [-> _].
      cbn [length] in Hl'. lia.
    + pose proof (chain_last_unwrapped _ _ _ Hc). congruence.
Qed.

(** A reference that wraps itself keeps the loop going for ever. *)
Lemma unwrapType_self_reference (r : Store.ref) :
  Store.readOfType h r = Some r ->
  forall fuel, Store.unwrapType fuel h r = None.
Proof.
  intros Hr. induction fuel as [|fuel IH]; [reflexivity|].
  cbn [Store.unwrapType]. now rewrite Hr.
Qed.

(** The store reading refines the tree reading: where the store holds a
    tree, the chain is finite and ends at the reference that holds what
    [unwrapLoop] returns. *)
Lemma holds_chain (t : GraphQLType) :
  forall r, Store.holds h t r ->
            exists l last, Store.chain h r l last
                           /\ Store.holds h (unwrapLoop t) last.
Proof.
  induction t as [n | n inner IH] using GraphQLType_chain_ind; intros r Hr.
  - exists [], r. split; [|exact Hr]. constructor.
    unfold Store.readOfType. cbn [Store.holds] in Hr. now rewrite Hr.
  - cbn [Store.holds] in Hr. destruct Hr as [r' [Hr Hinner]].
    destruct (IH r' Hinner) as [l [last [Hc Hlast]]].
    exists (r :: l), last. split; [|exact Hlast].
    apply Store.chain_step with r'; [|exact Hc].
    unfold Store.readOfType. now rewrite Hr.
Qed.

(** The two readings agree: a tree held by the store is unwrapped by the
    loop, within as many iterations as it has references, to the reference
    that holds what [unwrapLoop] returns, and the store is left as it was. *)
Lemma unwrapType_refines (t : GraphQLType)
    (r : Store.ref) :
  Store.holds h t r ->
  exists fuel last,
    Store.unwrapType fuel h r = Some (last, h)
    /\ Store.holds h (unwrapLoop t) last.
Proof.
  intros Hr. destruct (holds_chain t r Hr) as [l [last [Hc Hlast]]].
  exists (S (length l)), last. split; [|exact Hlast].
  apply (chain_unwrapType r l last Hc). lia.
Qed.

(** C9: when the chain of [ofType] references from [r] is finite, with
    wrapping references [l] and end [last], the loop returns [last]
    within [length l + 1] iterations, [last] wraps nothing while every
    reference before it does, and the store is returned as it was given. *)
Theorem unwrapType_terminates (r : Store.ref)
    (l : list Store.ref) (last : Store.ref) :
  Store.chain h r l last ->
  (forall fuel, length l < fuel -> Store.unwrapType fuel h r = Some (last, h))
  /\ Store.readOfType h last = None
  /\ Forall (fun x => Store.readOfType h x <> None) l
  /\ List.NoDup (l ++ [last]).
Proof.
  intros Hc. split; [|split; [|split]].
  - now apply chain_unwrapType.
  - eapply chain_last_unwrapped, Hc.
  - eapply chain_all_wrapping, Hc.
  - eapply chain_acyclic, Hc.
Qed.

End StoreChains.

Lemma unwrapType_terminates_witness :
  Store.chain listOfUsers 0 [0; 1] 2
  /\ Store.unwrapType 3 listOfUsers 0 = Some (2, listOfUsers).
Proof.
  assert (Hc : Store.chain listOfUsers 0 [0; 1] 2).
  { apply Store.chain_step with 1; [reflexivity|].
    apply Store.chain_step with 2; [reflexivity|].
    apply Store.chain_end. reflexivity. }
  split; [exact Hc|].
  apply (proj1 (unwrapType_terminates listOfUsers 0 [0; 1] 2 Hc) 3).
  cbn [length]. lia.
Defined.

Lemma unwrapType_chain_witness :
  exists l, Store.chain listOfUsers 0 l 2 /\ length l < 3.
Proof.
  apply (unwrapType_chain listOfUsers 3 0 2 listOfUsers). reflexivity.
Defined.

Lemma unwrapType_refines_witness :
  exists fuel last,
    Store.unwrapType fuel listOfUsers 0 = Some (last, listOfUsers)
    /\ Store.holds listOfUsers (MkType (Some "User") None) last.
Proof.
  apply (unwrapType_refines listOfUsers
           (MkType None (Some (MkType None (Some (MkType (Some "User") None)))))
           0).
  exists 1. split; [reflexivity|]. exists 2. split; reflexivity.
Defined.

(** ** More on [toPascalCase] *)

Lemma lowerChar_upperChar (c : ascii) : lowerChar (upperChar c) = lowerChar c.
Proof. ascii_cases c. Qed.

Lemma isWord_not_space (c : ascii) : isWord c = true -> isSpace c = false.
Proof. ascii_cases c. Qed.

Lemma isSpace_upperChar (c : ascii) : isSpace (upperChar c) = isSpace c.
Proof. ascii_cases c. Qed.

Lemma removeSeparators_steps (s : string) :
  removeChars isSpace
    (mapChars (fun c => if isHyphenOrUnderscore c then " "%char else c)
       (removeChars isBracket s))
  = removeChars isSeparator s.
Proof.
  induction s as [|c r IH]; [reflexivity|].
  cbn [removeChars]. unfold isSeparator at 1.
  destruct (isBracket c); [exact IH|].
  cbn [mapChars removeChars orb].
  destruct (isHyphenOrUnderscore c); cbn [orb]; [exact IH|].
  destruct (isSpace c); [exact IH | now rewrite IH].
Qed.

Lemma lower_removeSpaces_capitalizeWords (s : string) :
  forall b,
    toLowerCase (removeChars isSpace (capitalizeWords b s))
    = toLowerCase (removeChars isSpace s).
Proof.
  unfold toLowerCase.
  induction s as [|c|c d r IHr IHd] using string_pair_ind; intros b.
  - reflexivity.
  - rewrite capitalizeWords_cons. destruct (b && isWord c) eqn:Hb.
    + apply andb_true_iff in Hb as [_ Hw].
      cbn [removeChars capitalizeWords]. rewrite isSpace_upperChar.
      rewrite (isWord_not_space c Hw). cbn [mapChars].
      now rewrite lowerChar_upperChar.
    + now destruct (isSpace c).
  - rewrite capitalizeWords_cons. destruct (b && isWord c) eqn:Hb.
    + apply andb_true_iff in Hb as [_ Hw].
      cbn [removeChars]. rewrite isSpace_upperChar, (isWord_not_space c Hw).
      cbn [mapChars]. rewrite lowerChar_upperChar. f_equal.
      exact (IHd false).
    + destruct (isSpace c) eqn:Hs.
      * destruct (isWord d) eqn:Hw.
        -- cbn [removeChars]. rewrite Hs, isSpace_upperChar, (isWord_not_space d Hw).
           cbn [mapChars]. rewrite lowerChar_upperChar. f_equal. exact (IHr false).
        -- cbn [removeChars]. rewrite Hs. exact (IHd false).
      * cbn [removeChars]. rewrite Hs. cbn [mapChars]. f_equal. exact (IHd false).
Qed.

Lemma lower_replaceFirstChar (s : string) :
  toLowerCase (replaceFirstChar upperChar s) = toLowerCase s.
Proof.
  destruct s as [|c r]; [reflexivity|]. cbn [replaceFirstChar].
  destruct (isLineTerminator c); [reflexivity|].
  unfold toLowerCase. cbn [mapChars]. now rewrite lowerChar_upperChar.
Qed.

Lemma toLowerCase_toPascalCase (s : string) :
  toLowerCase (toPascalCase s) = toLowerCase (removeChars isSeparator s).
Proof.
  unfold toPascalCase.
  now rewrite lower_replaceFirstChar, lower_removeSpaces_capitalizeWords,
    removeSeparators_steps.
Qed.

Lemma length_mapChars (f : ascii -> ascii) (s : string) :
  String.length (mapChars f s) = String.length s.
Proof. induction s as [|c r IH]; [reflexivity | cbn; now rewrite IH]. Qed.

Lemma length_removeChars (p : ascii -> bool) (s : string) :
  String.length (removeChars p s) <= String.length s.
Proof.
  induction s as [|c r IH]; [reflexivity|].
  cbn [removeChars]. destruct (p c); cbn [String.length]; lia.
Qed.

Lemma removeChars_empty (p : ascii -> bool) (s : string) :
  removeChars p s = "" <-> allChars p s = true.
Proof.
  induction s as [|c r IH]; [easy|].
  cbn [removeChars allChars]. destruct (p c); cbn [andb]; [exact IH | easy].
Qed.

Lemma length_zero_empty (s : string) : String.length s = 0 <-> s = "".
Proof. destruct s; [easy | split; discriminate]. Qed.

(** On a string of ASCII code units [toPascalCase] removes brackets,
    hyphens, underscores and spaces and changes the case of letters; it
    does nothing else.  So its result is never longer than its argument,
    and it is empty exactly when the argument holds nothing but such
    separators.  (Beyond ASCII the upper case of a code unit can be longer
    than the code unit.) *)
Theorem toPascalCase_keeps_letters (s : string) :
  isAsciiString s = true ->
  toLowerCase (toPascalCase s) = toLowerCase (removeChars isSeparator s)
  /\ String.length (toPascalCase s) <= String.length s
  /\ (toPascalCase s = "" <-> allChars isSeparator s = true).
Proof.
  intros _. pose proof (toLowerCase_toPascalCase s) as H.
  pose proof (f_equal String.length H) as Hlen.
  unfold toLowerCase in Hlen. rewrite !length_mapChars in Hlen.
  split; [exact H | split].
  - rewrite Hlen. apply length_removeChars.
  - rewrite <- removeChars_empty, <- !length_zero_empty. now rewrite Hlen.
Qed.

Lemma toPascalCase_keeps_letters_witness :
  toLowerCase (toPascalCase "user-Profile_[card]") = "userprofilecard"
  /\ String.length (toPascalCase "user-Profile_[card]") <= 19
  /\ (toPascalCase "user-Profile_[card]" = ""
      <-> allChars isSeparator "user-Profile_[card]" = true).
Proof.
  apply (toPascalCase_keeps_letters "user-Profile_[card]"). reflexivity.
Defined.


Lemma isCapitalized_append (a b : string) :
  isCapitalized a = true -> isCapitalized b = true ->
  isCapitalized (a +:+ b) = true.
Proof. destruct a; [now rewrite append_nil | now rewrite append_cons]. Qed.



Lemma occursIn_refl (s : string) : occursIn s s.
Proof. exists "", "". now rewrite append_nil, append_empty_r. Qed.

Lemma occursIn_empty (s : string) : occursIn "" s.
Proof. exists "", s. reflexivity. Qed.

(** The prefix that takes the type name into account never adds to the
    plain one: it is empty, or one of the two normalized candidates, or
    the whole of it, and in every case a contiguous part of what
    [calculatePrefix] returns for the same path and options. *)
Theorem calculatePrefixWithTypeName_part_of_calculatePrefix (p typeName : string)
    (options : PathOptions) :
  occursIn (calculatePrefixWithTypeName p typeName options)
    (calculatePrefix p options).
Proof.
  rewrite calculatePrefixWithTypeName_cases. unfold calculatePrefix. cbv zeta.
  destruct (hasSignificantOverlap _ _);
    destruct (String.eqb_spec (toPascalCase (dirName (extractPathInfo p options)))
                (toPascalCase (fileName (extractPathInfo p options)))) as [Heq | Hne];
    try destruct (andb _ _);
    try apply occursIn_refl; try apply occursIn_empty.
  - exists "", (toPascalCase (fileName (extractPathInfo p options))). reflexivity.
  - exists (toPascalCase (dirName (extractPathInfo p options))), "".
    now rewrite append_empty_r.
Qed.

(** ** More on [extractPathInfo] *)

Lemma split_pieces (sep : ascii) (s : string) :
  Forall (fun piece => allChars (fun c => negb (c =? sep)%char) piece = true)
    (split sep s).
Proof.
  induction s as [|c r IH]; [now repeat constructor|].
  cbn [split]. destruct (c =? sep)%char eqn:Hc; [now constructor|].
  destruct (split sep r) as [|h t]; [repeat constructor; cbn; now rewrite Hc|].
  inversion IH as [|? ? Hh Ht]; subst.
  constructor; [|exact Ht]. cbn [allChars]. now rewrite Hc, Hh.
Qed.

Lemma at_Forall (P : string -> Prop) (arr : list string) (i : nat) :
  P "" -> Forall P arr -> P (at_ arr i).
Proof.
  intros Hdefault Hall. unfold at_. revert i.
  induction Hall as [|x l Hx _ IH]; intros [|i]; cbn [nth]; auto.
Qed.

Lemma pickDir_Forall (P : string -> Prop) (skip dirs : list string) :
  P "" -> Forall P dirs -> P (pickDir skip dirs).
Proof.
  intros Hdefault Hall. unfold pickDir.
  destruct (_ && _); now apply at_Forall.
Qed.

Lemma allChars_removeChars (p q : ascii -> bool) (s : string) :
  allChars p s = true -> allChars p (removeChars q s) = true.
Proof.
  induction s as [|c r IH]; [reflexivity|].
  cbn [allChars removeChars]. rewrite andb_true_iff. intros [Hc Hr].
  destruct (q c); [now apply IH|]. cbn [allChars]. now rewrite Hc, IH.
Qed.

Lemma removeChars_removed (p : ascii -> bool) (s : string) :
  allChars (fun c => negb (p c)) (removeChars p s) = true.
Proof.
  induction s as [|c r IH]; [reflexivity|].
  cbn [removeChars]. destruct (p c) eqn:Hc; [exact IH|].
  cbn [allChars]. now rewrite Hc, IH.
Qed.

(** Neither candidate that [extractPathInfo] returns holds a bracket; the
    directory candidate holds no separator and the file candidate no dot,
    whatever the path and the skip set. *)
Theorem extractPathInfo_candidates_clean (p : string) (options : PathOptions) :
  allChars (fun c => negb (isBracket c)) (dirName (extractPathInfo p options)) = true
  /\ allChars (fun c => negb (c =? NodePath.sep)%char)
       (dirName (extractPathInfo p options)) = true
  /\ allChars (fun c => negb (isBracket c)) (fileName (extractPathInfo p options)) = true
  /\ allChars (fun c => negb (c =? ".")%char)
       (fileName (extractPathInfo p options)) = true.
Proof.
  unfold extractPathInfo. cbv zeta. cbn [dirName fileName].
  split; [apply removeChars_removed | split; [|split; [apply removeChars_removed|]]].
  - apply allChars_removeChars.
    apply (pickDir_Forall
             (fun s => allChars (fun c => negb (c =? NodePath.sep)%char) s = true));
      [reflexivity | apply split_pieces].
  - apply allChars_removeChars.
    apply (at_Forall (fun s => allChars (fun c => negb (c =? ".")%char) s = true));
      [reflexivity | apply split_pieces].
Qed.

Lemma at_split_first (s : string) : at_ (split "." s) 0 = beforeDot s.
Proof.
  induction s as [|c r IH]; [reflexivity|].
  cbn [split beforeDot]. destruct (c =? ".")%char; [reflexivity|].
  unfold at_ in *. destruct (split "." r) as [|h t] eqn:Hs.
  - now elim (split_not_empty "." r).
  - cbn [nth] in *. now rewrite IH.
Qed.

Lemma cutLastDot_spec (s n e : string) :
  NodePath.cutLastDot s = Some (n, e) ->
  exists rest, e = String "." rest /\ s = n +:+ e.
Proof.
  revert n e. induction s as [|c r IH]; intros n e; [discriminate|].
  cbn [NodePath.cutLastDot]. destruct (NodePath.cutLastDot r) as [[n' e']|].
  - intros [= <- <-]. destruct (IH n' e' eq_refl) as [rest [-> ->]].
    exists rest. split; [reflexivity | now rewrite append_cons].
  - destruct (c =? ".")%char eqn:Hc; [|discriminate].
    apply Ascii.eqb_eq in Hc. subst c. intros [= <- <-].
    exists r. split; reflexivity.
Qed.

Lemma beforeDot_append_dot (n rest : string) :
  beforeDot (n +:+ String "." rest) = beforeDot n.
Proof.
  induction n as [|c n IH]; [reflexivity|].
  rewrite append_cons. cbn [beforeDot]. destruct (c =? ".")%char; [reflexivity|].
  now rewrite IH.
Qed.

Lemma beforeDot_splitExt (b : string) (firstOfAbsolute : bool) :
  beforeDot (fst (NodePath.splitExt b firstOfAbsolute)) = beforeDot b.
Proof.
  unfold NodePath.splitExt. destruct (NodePath.cutLastDot b) as [[n e]|] eqn:Hcut;
    [|reflexivity].
  destruct (_ || _); [reflexivity|]. cbn [fst].
  destruct (cutLastDot_spec b n e Hcut) as [rest [-> ->]].
  now rewrite beforeDot_append_dot.
Qed.

(** The file candidate is the base name of the path up to its first dot,
    with brackets removed: of the extensions of the base name, however
    many, none is kept. *)
Theorem extractPathInfo_fileName_before_first_dot (p : string)
    (options : PathOptions) :
  fileName (extractPathInfo p options)
  = removeChars isBracket (beforeDot (NodePath.base (NodePath.parse p))).
Proof.
  unfold extractPathInfo. cbv zeta. cbn [fileName]. rewrite at_split_first.
  f_equal. unfold NodePath.parse.
  destruct (NodePath.lastPart _) as [[before b]|]; [|reflexivity].
  cbn [NodePath.name NodePath.base]. apply beforeDot_splitExt.
Qed.

(** ** More on [hasSignificantOverlap] *)

Lemma beginsWith_refl (s : string) : beginsWith s s.
Proof. exists "". now rewrite append_empty_r. Qed.

Lemma beginsWith_empty (s : string) : beginsWith s "".
Proof. now exists s. Qed.

Lemma beginsWith_trans (x y z : string) :
  beginsWith x y -> beginsWith y z -> beginsWith x z.
Proof.
  intros [u ->] [v ->]. exists (v +:+ u). now rewrite append_assoc.
Qed.

Lemma beginsWith_cons (c : ascii) (x a : string) :
  beginsWith x a -> beginsWith (String c x) (String c a).
Proof. intros [u ->]. now exists u. Qed.

Lemma beginsWith_cons_inv (c : ascii) (x a : string) :
  beginsWith (String c x) a ->
  a = "" \/ exists a', a = String c a' /\ beginsWith x a'.
Proof.
  destruct a as [|d a']; [now left|]. intros [u H]. right.
  rewrite append_cons in H. injection H as -> ->.
  exists a'. split; [reflexivity | now exists u].
Qed.

Lemma removeAtEnd_beginsWith (alts : list string) (s : string) :
  beginsWith s (removeAtEnd alts s).
Proof.
  induction s as [|c r IH].
  - cbn [removeAtEnd]. destruct (existsb _ _); apply beginsWith_refl.
  - cbn [removeAtEnd]. destruct (existsb _ _);
      [apply beginsWith_empty | now apply beginsWith_cons].
Qed.

(** The stripping takes code units away from the end and from nowhere
    else. *)
Lemma stripSuffix_beginsWith (s : string) : beginsWith s (stripSuffix s).
Proof.
  unfold stripSuffix.
  eapply beginsWith_trans; [|apply removeAtEnd_beginsWith].
  eapply beginsWith_trans; [|apply removeAtEnd_beginsWith].
  apply removeAtEnd_beginsWith.
Qed.

Lemma removeAtEnd_alternative (alts : list string) (x a : string) :
  In a alts -> beginsWith x (removeAtEnd alts (x +:+ a)).
Proof.
  intros Hin. induction x as [|c r IH].
  - rewrite append_nil.
    assert (H : existsb (String.eqb a) alts = true).
    { apply existsb_exists. exists a. split; [exact Hin | apply String.eqb_refl]. }
    destruct a; cbn [removeAtEnd]; rewrite H; apply beginsWith_refl.
  - rewrite append_cons. cbn [removeAtEnd]. destruct (existsb _ _);
      [apply beginsWith_empty | now apply beginsWith_cons].
Qed.

Lemma endsWithChar_append (z : ascii) (r : string) :
  endsWithChar z (r +:+ String z "") = true.
Proof.
  induction r as [|c r IH]; [cbn; apply Ascii.eqb_refl|].
  rewrite append_cons. cbn [endsWithChar].
  destruct (r +:+ String z "") eqn:E; [|exact IH].
  destruct r; discriminate.
Qed.

Lemma removeAtEnd_other_ending (alts : list string) (z : ascii) (r : string) :
  forallb (fun a => negb (endsWithChar z a)) alts = true ->
  removeAtEnd alts (r +:+ String z "") = r +:+ String z "".
Proof.
  intros Halts.
  assert (Hno : forall s, endsWithChar z s = true ->
                          existsb (String.eqb s) alts = false).
  { intros s Hs. destruct (existsb (String.eqb s) alts) eqn:E; [|reflexivity].
    apply existsb_exists in E as [a [Hin Heq]]. apply String.eqb_eq in Heq. subst a.
    rewrite forallb_forall in Halts. specialize (Halts s Hin).
    now rewrite Hs in Halts. }
  induction r as [|c r IH].
  - rewrite append_nil. cbn [removeAtEnd].
    rewrite (Hno (String z "")) by (cbn; apply Ascii.eqb_refl).
    cbn [removeAtEnd]. now destruct (existsb _ _).
  - rewrite append_cons. cbn [removeAtEnd].
    rewrite (Hno (String c (r +:+ String z ""))).
    + now rewrite IH.
    + rewrite <- append_cons. apply endsWithChar_append.
Qed.

Lemma startsWith_refl (s : string) : startsWith s s = true.
Proof. apply startsWith_beginsWith, beginsWith_refl. Qed.

Lemma includes_startsWith (s sub : string) :
  startsWith s sub = true -> includes s sub = true.
Proof. intros H. destruct s; cbn [includes]; now rewrite H. Qed.

(** Two beginnings of one string: one of them begins the other. *)
Lemma beginnings_comparable (x a b : string) :
  beginsWith x a -> beginsWith x b ->
  startsWith a b = true \/ startsWith b a = true.
Proof.
  revert a b. induction x as [|c x IH]; intros a b Ha Hb.
  - destruct Ha as [u Hu]. destruct a; [|discriminate]. right. apply startsWith_empty.
  - apply beginsWith_cons_inv in Ha as [-> | [a' [-> Ha]]];
      [right; apply startsWith_empty|].
    apply beginsWith_cons_inv in Hb as [-> | [b' [-> Hb]]];
      [left; reflexivity|].
    cbn [startsWith]. rewrite Ascii.eqb_refl. cbn [andb]. now apply IH.
Qed.

Lemma hasSignificantOverlap_common_beginning (x typeName fileName : string) :
  beginsWith x (stripSuffix (toLowerCase typeName)) ->
  beginsWith x (stripSuffix (toLowerCase fileName)) ->
  hasSignificantOverlap typeName fileName = true.
Proof.
  intros Ht Hf. unfold hasSignificantOverlap.
  destruct (beginnings_comparable x _ _ Ht Hf) as [H | H];
    apply includes_startsWith in H; rewrite H; now rewrite ?orb_true_r.
Qed.

Lemma toLowerCase_append (a b : string) :
  toLowerCase (a +:+ b) = toLowerCase a +:+ toLowerCase b.
Proof.
  unfold toLowerCase. induction a as [|c a IH]; [reflexivity|].
  rewrite append_cons. cbn [mapChars]. now rewrite IH, append_cons.
Qed.

(** Two names that differ by the case of their letters only overlap; in
    particular a name overlaps itself. *)
Theorem hasSignificantOverlap_same_up_to_case (typeName fileName : string) :
  toLowerCase typeName = toLowerCase fileName ->
  hasSignificantOverlap typeName fileName = true.
Proof.
  intros H. apply (hasSignificantOverlap_common_beginning (toLowerCase typeName)).
  - apply stripSuffix_beginsWith.
  - rewrite H. apply stripSuffix_beginsWith.
Qed.

Lemma hasSignificantOverlap_same_up_to_case_witness :
  hasSignificantOverlap "orderTask" "ORDERTASK" = true.
Proof.
  apply (hasSignificantOverlap_same_up_to_case "orderTask" "ORDERTASK").
  reflexivity.
Defined.

(** A file named after the type with one of the stripped suffixes added,
    in any case ([Users] or [UserList] for [User], say), overlaps the type,
    whatever the type name of ASCII code units is; and likewise with the
    two names exchanged.  (Beyond ASCII the lower case of a letter can
    depend on what follows it.) *)
Theorem hasSignificantOverlap_suffixed (name suffix : string) :
  isAsciiString name = true ->
  isAsciiString suffix = true ->
  In (toLowerCase suffix) ["s"; "es"; "ies"; "list"; "data"] ->
  hasSignificantOverlap name (name +:+ suffix) = true
  /\ hasSignificantOverlap (name +:+ suffix) name = true.
Proof.
  intros _ _ Hin.
  assert (H : beginsWith (toLowerCase name)
                (stripSuffix (toLowerCase (name +:+ suffix)))).
  { rewrite toLowerCase_append. unfold stripSuffix.
    cbn [In] in Hin.
    destruct Hin as [<- | [<- | [<- | [<- | [<- | []]]]]].
    - eapply beginsWith_trans; [|apply removeAtEnd_beginsWith].
      eapply beginsWith_trans; [|apply removeAtEnd_beginsWith].
      apply removeAtEnd_alternative. cbn; tauto.
    - eapply beginsWith_trans; [|apply removeAtEnd_beginsWith].
      eapply beginsWith_trans; [|apply removeAtEnd_beginsWith].
      apply removeAtEnd_alternative. cbn; tauto.
    - eapply beginsWith_trans; [|apply removeAtEnd_beginsWith].
      eapply beginsWith_trans; [|apply removeAtEnd_beginsWith].
      apply removeAtEnd_alternative. cbn; tauto.
    - eapply beginsWith_trans; [|apply removeAtEnd_beginsWith].
      change "list" with ("lis" +:+ String "t" "").
      rewrite <- append_assoc, (removeAtEnd_other_ending ["s"; "es"; "ies"])
        by reflexivity.
      rewrite append_assoc. apply removeAtEnd_alternative. cbn; tauto.
    - change "data" with ("dat" +:+ String "a" "").
      rewrite <- append_assoc, (removeAtEnd_other_ending ["s"; "es"; "ies"])
        by reflexivity.
      rewrite (removeAtEnd_other_ending ["list"]) by reflexivity.
      rewrite append_assoc. apply removeAtEnd_alternative. cbn; tauto. }
  split.
  - apply (hasSignificantOverlap_common_beginning (toLowerCase name));
      [apply stripSuffix_beginsWith | exact H].
  - apply (hasSignificantOverlap_common_beginning (toLowerCase name));
      [exact H | apply stripSuffix_beginsWith].
Qed.

Lemma hasSignificantOverlap_suffixed_witness :
  hasSignificantOverlap "OrderForClient" "OrderForClientList" = true
  /\ hasSignificantOverlap "OrderForClientList" "OrderForClient" = true.
Proof.
  apply (hasSignificantOverlap_suffixed "OrderForClient" "List");
    [reflexivity | reflexivity |].
  cbn. tauto.
Defined.

(** ** The rules *)

Import ReportUtils Rules.

Lemma reportNamingViolation_violation (log : list Descriptor) (n : NameNode)
    (expected messageText : string) :
  reportNamingViolation log
    {| optNode := n; expectedName := expected; optMessage := messageText |}
  = log ++ [violation n expected messageText].
Proof. reflexivity. Qed.

Lemma fragmentListener_cases (context : Context) (fragment : FragmentDefinitionNode)
    (log : list Descriptor) :
  fragmentListener context fragment log
  = Normal
      match fragmentName fragment, typeCondition fragment with
      | Some n, Some c =>
          let typeName := value (conditionName c) in
          if startsWith (value n) (expectedNameIn context typeName) then log
          else log ++ [violation n (expectedNameIn context typeName)
                         (createFragmentMessage (expectedNameIn context typeName))]
      | _, _ => log
      end.
Proof.
  unfold fragmentListener.
  destruct (fragmentName fragment) as [n|]; [|reflexivity].
  destruct (typeCondition fragment) as [c|]; [|reflexivity].
  cbn [falsy orb read bind]. cbv zeta. unfold isValidName, expectedNameIn, generateExpectedName.
  now destruct (startsWith _ _).
Qed.

Lemma firstFieldName_cases (operationNode : OperationDefinitionNode) :
  firstFieldName operationNode = Normal (firstField operationNode).
Proof.
  unfold firstFieldName, firstField.
  destruct (selectionSet operationNode) as [[[[|first rest]|]]|]; try reflexivity.
  cbn [falsy read bind selections length Nat.eqb nth_error].
  now destruct (selectionName first).
Qed.

Lemma operationListener_cases (context : Context) (schemaObject : GraphQLSchema)
    (operationNode : OperationDefinitionNode) (log : list Descriptor) :
  operationListener context schemaObject operationNode log
  = Normal
      match operationName operationNode, operation operationNode,
            resolvedTypeName schemaObject operationNode with
      | Some n, query, Some typeName =>
          if startsWith (value n) (expectedNameIn context typeName) then log
          else log ++ [violation n (expectedNameIn context typeName)
                         (createQueryMessage (expectedNameIn context typeName))]
      | Some n, subscription, Some typeName =>
          if startsWith (value n) (expectedNameIn context typeName) then log
          else log ++ [violation n (expectedNameIn context typeName)
                         (createSubscriptionMessage (expectedNameIn context typeName))]
      | _, _, _ => log
      end.
Proof.
  unfold operationListener, resolvedTypeName.
  destruct (operationName operationNode) as [n|]; [|reflexivity].
  cbn [falsy]. cbv zeta.
  destruct (operation operationNode) eqn:Hop; [|reflexivity|];
    (rewrite firstFieldName_cases; cbn [bind];
     destruct (firstField operationNode) as [fieldName|]; [|reflexivity];
     rewrite getOperationTypeName_cases; cbn [bind];
     match goal with
     | |- context [noTypeName ?t] => destruct t as [typeName|]; [|reflexivity]
     end;
     cbn [noTypeName]; destruct (truthy typeName); [|reflexivity];
     cbn [negb read bind];
     unfold isValidName, expectedNameIn, generateExpectedName;
     now destruct (startsWith _ _)).
Qed.

Lemma mutationListener_cases (context : Context) (schemaObject : GraphQLSchema)
    (operationNode : OperationDefinitionNode) (log : list Descriptor) :
  mutationListener context schemaObject operationNode log
  = Normal
      match operationName operationNode, operation operationNode,
            resolvedTypeName schemaObject operationNode with
      | Some n, mutation, Some typeName =>
          if startsWith (value n) (expectedNameIn context typeName) then log
          else log ++ [violation n (expectedNameIn context typeName)
                         (createMutationMessage (expectedNameIn context typeName))]
      | _, _, _ => log
      end.
Proof.
  unfold mutationListener, resolvedTypeName.
  destruct (operationName operationNode) as [n|]; [|reflexivity].
  cbn [falsy]. destruct (operation operationNode) eqn:Hop;
    [reflexivity| |reflexivity].
  rewrite firstFieldName_cases. cbn [bind].
  destruct (firstField operationNode) as [fieldName|]; [|reflexivity].
  rewrite getOperationTypeName_cases. cbn [bind].
  match goal with
  | |- context [noTypeName ?t] => destruct t as [typeName|]; [|reflexivity]
  end.
  cbn [noTypeName]. destruct (truthy typeName); [|reflexivity].
  cbn [negb read bind].
  unfold isValidName, expectedNameIn, generateExpectedName.
  now destruct (startsWith _ _).
Qed.

Lemma startsWith_false_beginsWith (s p : string) :
  startsWith s p = false <-> ~ beginsWith s p.
Proof.
  rewrite <- startsWith_beginsWith. now destruct (startsWith s p).
Qed.

Lemma app_one_neq (A : Type) (l : list A) (x : A) : l ++ [x] <> l.
Proof.
  intros H. apply (f_equal (@length A)) in H. rewrite length_app in H.
  cbn [length] in H. lia.
Qed.

(** What [reportNamingViolation] adds to the log is one report on the
    node it was given.  Its message starts with the message passed in and
    quotes the expected name; its one suggestion quotes it as well and
    carries the same fix as the report.  The fix replaces the span of the
    node by the expected name; a node without a span gets a report
    without a fix. *)
Theorem reportNamingViolation_content (log : list Descriptor)
    (options : ReportOptions) :
  exists d s,
    reportNamingViolation log options = log ++ [d]
    /\ node d = optNode options
    /\ beginsWith (message d) (optMessage options)
    /\ occursIn (expectedName options) (message d)
    /\ suggest d = [s]
    /\ occursIn (expectedName options) (desc s)
    /\ sfix s = autofix d
    /\ (range (optNode options) = None -> autofix d = None)
    /\ (forall span,
          range (optNode options) = Some span ->
          autofix d = Some {| fixRange := span; fixText := expectedName options |}).
Proof.
  eexists. eexists. split; [reflexivity|]. cbn [node message suggest desc sfix autofix].
  repeat match goal with |- _ /\ _ => split end; try reflexivity.
  - now exists (" (expected: " +:+ expectedName options +:+ ")").
  - exists (optMessage options +:+ " (expected: "), ")".
    now rewrite !append_assoc.
  - exists ("Rename to " +:+ backtick), backtick. now rewrite !append_assoc.
  - unfold renameFix. now intros ->.
  - unfold renameFix. intros [first last] ->. reflexivity.
Qed.

(** A listener never throws and never touches the reports made before:
    it returns the log it was given with at most one report added. *)
Theorem listeners_add_at_most_one_report (context : Context)
    (schemaObject : GraphQLSchema) (fragment : FragmentDefinitionNode)
    (operationNode : OperationDefinitionNode) (log : list Descriptor) :
  (exists added, fragmentListener context fragment log = Normal (log ++ added)
                 /\ length added <= 1)
  /\ (exists added,
         operationListener context schemaObject operationNode log
         = Normal (log ++ added) /\ length added <= 1)
  /\ (exists added,
         mutationListener context schemaObject operationNode log
         = Normal (log ++ added) /\ length added <= 1).
Proof.
  rewrite fragmentListener_cases, operationListener_cases, mutationListener_cases.
  assert (Hnone : exists added : list Descriptor,
             Normal log = Normal (log ++ added) /\ length added <= 1).
  { exists []. split; [now rewrite app_nil_r | cbn; lia]. }
  assert (Hone : forall d : Descriptor,
             exists added, Normal (log ++ [d]) = Normal (log ++ added)
                           /\ length added <= 1).
  { intros d. exists [d]. split; [reflexivity | cbn; lia]. }
  split; [|split].
  - destruct (fragmentName fragment), (typeCondition fragment); try exact Hnone.
    cbv zeta. destruct (startsWith _ _); [exact Hnone | apply Hone].
  - destruct (operationName operationNode), (operation operationNode),
      (resolvedTypeName schemaObject operationNode); try exact Hnone;
      (destruct (startsWith _ _); [exact Hnone | apply Hone]).
  - destruct (operationName operationNode), (operation operationNode),
      (resolvedTypeName schemaObject operationNode); try exact Hnone;
      (destruct (startsWith _ _); [exact Hnone | apply Hone]).
Qed.

(** The fragment rule reports a named fragment with a type condition
    exactly when its name does not begin with the expected name for the
    type it is on; the report is on the name node, with the fragment
    message.  Any suffix after the expected name is accepted. *)
Theorem fragmentListener_verdict (context : Context)
    (fragment : FragmentDefinitionNode) (log : list Descriptor)
    (n : NameNode) (c : TypeCondition) :
  fragmentName fragment = Some n ->
  typeCondition fragment = Some c ->
  (beginsWith (value n) (expectedNameIn context (value (conditionName c))) ->
   fragmentListener context fragment log = Normal log)
  /\ (~ beginsWith (value n) (expectedNameIn context (value (conditionName c))) ->
      fragmentListener context fragment log
      = Normal (log ++ [violation n
                          (expectedNameIn context (value (conditionName c)))
                          (createFragmentMessage
                             (expectedNameIn context (value (conditionName c))))])).
Proof.
  intros Hn Hc. rewrite fragmentListener_cases, Hn, Hc. cbv zeta.
  destruct (startsWith _ _) eqn:E.
  - apply startsWith_beginsWith in E. split; [reflexivity | now intros H].
  - apply startsWith_false_beginsWith in E. split; [now intros H | reflexivity].
Qed.

Lemma fragmentListener_verdict_witness :
  fragmentListener userCardContext
    (fragmentNamed {| value := "UsersUserWithDetails"; range := Some (9, 29) |}) []
  = Normal []
  /\ fragmentListener userCardContext
       (fragmentNamed {| value := "UserCard"; range := Some (9, 17) |}) []
     = Normal [violation {| value := "UserCard"; range := Some (9, 17) |}
                 "UsersUser" (createFragmentMessage "UsersUser")].
Proof.
  split.
  - refine (proj1 (fragmentListener_verdict userCardContext
                     (fragmentNamed {| value := "UsersUserWithDetails";
                                       range := Some (9, 29) |})
                     [] _ onUser eq_refl eq_refl) _).
    exists "WithDetails". reflexivity.
  - refine (proj2 (fragmentListener_verdict userCardContext
                     (fragmentNamed {| value := "UserCard"; range := Some (9, 17) |})
                     [] _ onUser eq_refl eq_refl) _).
    apply startsWith_false_beginsWith. reflexivity.
Defined.

(** The operation rule and the mutation rule share the operations between
    them: the first leaves every mutation alone, the second every query
    and subscription, so no operation is reported by both.  The rule in
    charge reports a named operation whose type name was resolved exactly
    when the name does not begin with the expected name. *)
Theorem operation_rules_verdict (context : Context) (schemaObject : GraphQLSchema)
    (operationNode : OperationDefinitionNode) (log : list Descriptor) :
  (operation operationNode = mutation ->
   operationListener context schemaObject operationNode log = Normal log)
  /\ (operation operationNode <> mutation ->
      mutationListener context schemaObject operationNode log = Normal log)
  /\ (operationListener context schemaObject operationNode log = Normal log
      \/ mutationListener context schemaObject operationNode log = Normal log)
  /\ (forall n typeName,
        operationName operationNode = Some n ->
        resolvedTypeName schemaObject operationNode = Some typeName ->
        let inCharge :=
          match operation operationNode with
          | mutation => mutationListener
          | _ => operationListener
          end in
        let messageText :=
          match operation operationNode with
          | query => createQueryMessage
          | mutation => createMutationMessage
          | subscription => createSubscriptionMessage
          end (expectedNameIn context typeName) in
        (beginsWith (value n) (expectedNameIn context typeName) ->
         inCharge context schemaObject operationNode log = Normal log)
        /\ (~ beginsWith (value n) (expectedNameIn context typeName) ->
            inCharge context schemaObject operationNode log
            = Normal (log ++ [violation n (expectedNameIn context typeName)
                                messageText]))).
Proof.
  assert (H1 : operation operationNode = mutation ->
               operationListener context schemaObject operationNode log
               = Normal log).
  { intros Hop. rewrite operationListener_cases, Hop.
    now destruct (operationName operationNode). }
  assert (H2 : operation operationNode <> mutation ->
               mutationListener context schemaObject operationNode log
               = Normal log).
  { intros Hop. rewrite mutationListener_cases.
    destruct (operationName operationNode), (operation operationNode);
      congruence. }
  split; [exact H1 | split; [exact H2 | split]].
  - destruct (operation operationNode) eqn:Hop;
      [right; apply H2; congruence | left; now apply H1
      | right; apply H2; congruence].
  - intros n typeName Hn Ht. cbv zeta.
    destruct (operation operationNode) eqn:Hop;
      rewrite ?operationListener_cases, ?mutationListener_cases, Hn, Hop, Ht;
      (destruct (startsWith _ _) eqn:E;
       [apply startsWith_beginsWith in E; split; [reflexivity | now intros H]
       |apply startsWith_false_beginsWith in E; split; [now intros H | reflexivity]]).
Qed.

Lemma operation_rules_verdict_witness :
  operationListener userCardContext mockSchema
    (operationOn query {| value := "GetUser"; range := Some (6, 13) |} "users") []
  = Normal [violation {| value := "GetUser"; range := Some (6, 13) |}
              "UsersUser" (createQueryMessage "UsersUser")]
  /\ operationListener userCardContext mockSchema
       (operationOn subscription {| value := "UsersUserCardUser"; range := None |}
          "userUpdated") []
     = Normal [].
Proof.
  split.
  - pose proof (proj2 (proj2 (proj2
        (operation_rules_verdict userCardContext mockSchema
           (operationOn query {| value := "GetUser"; range := Some (6, 13) |}
              "users") [])))) as H.
    specialize (H _ "User" eq_refl eq_refl). apply H.
    apply startsWith_false_beginsWith. reflexivity.
  - pose proof (proj2 (proj2 (proj2
        (operation_rules_verdict userCardContext mockSchema
           (operationOn subscription
              {| value := "UsersUserCardUser"; range := None |}
              "userUpdated") [])))) as H.
    specialize (H _ "User" eq_refl eq_refl). apply H.
    exists "CardUser". reflexivity.
Defined.

Lemma resolvedTypeName_Some (schemaObject : GraphQLSchema)
    (operationNode : OperationDefinitionNode) (typeName : string) :
  resolvedTypeName schemaObject operationNode = Some typeName ->
  exists first rest fieldNode rootType field t,
    selectionSet operationNode = Some {| selections := Some (first :: rest) |}
    /\ selectionName first = Some fieldNode
    /\ rootTypeOf schemaObject (operation operationNode) = Some rootType
    /\ getFields rootType !! value fieldNode = Some field
    /\ type field = Some t
    /\ name (unwrapLoop t) = Some typeName
    /\ typeName <> "".
Proof.
  unfold resolvedTypeName, firstField.
  destruct (selectionSet operationNode) as [[[[|first rest]|]]|]; try discriminate.
  destruct (selectionName first) as [fieldNode|] eqn:Hsel; [|discriminate].
  rewrite getOperationTypeName_cases.
  destruct (rootTypeOf _ _) as [rootType|]; [|discriminate].
  destruct (getFields rootType !! value fieldNode) as [field|] eqn:Hf; [|discriminate].
  destruct (type field) as [t|] eqn:Ht; [|discriminate].
  destruct (name (unwrapLoop t)) as [found|] eqn:Hname; [|discriminate].
  unfold truthy. destruct (String.eqb_spec found "") as [|Hne]; [discriminate|].
  cbn [negb]. intros [= <-].
  exists first, rest, fieldNode, rootType, field, t.
  repeat match goal with |- _ /\ _ => split end; auto.
Qed.

(** An operation rule reports only what it could check: the operation has
    a name, its first selection is a field with a name, the root type for
    the operation kind declares that field, the declared type ends in a
    reference with a non-empty name, and the operation name does not
    begin with the expected name.  In every other case (an anonymous
    operation, an empty selection set, an inline fragment first, a schema
    without that root type or field, a type without a name) the log comes
    back as it was. *)
Theorem operation_rules_report_only_resolved (context : Context)
    (schemaObject : GraphQLSchema) (operationNode : OperationDefinitionNode)
    (log : list Descriptor) :
  operationListener context schemaObject operationNode log <> Normal log
  \/ mutationListener context schemaObject operationNode log <> Normal log ->
  exists n first rest fieldNode rootType field t typeName,
    operationName operationNode = Some n
    /\ selectionSet operationNode = Some {| selections := Some (first :: rest) |}
    /\ selectionName first = Some fieldNode
    /\ rootTypeOf schemaObject (operation operationNode) = Some rootType
    /\ getFields rootType !! value fieldNode = Some field
    /\ type field = Some t
    /\ name (unwrapLoop t) = Some typeName
    /\ typeName <> ""
    /\ ~ beginsWith (value n) (expectedNameIn context typeName).
Proof.
  rewrite operationListener_cases, mutationListener_cases.
  intros H.
  destruct (operationName operationNode) as [n|]; [|now destruct H].
  destruct (resolvedTypeName schemaObject operationNode) as [typeName|] eqn:Ht.
  2:{ destruct (operation operationNode); now destruct H. }
  destruct (resolvedTypeName_Some _ _ _ Ht)
    as (first & rest & fieldNode & rootType & field & t & H1 & H2 & H3 & H4 & H5 & H6 & H7).
  exists n, first, rest, fieldNode, rootType, field, t, typeName.
  repeat match goal with |- _ /\ _ => split end; try assumption; try reflexivity.
  apply startsWith_false_beginsWith.
  destruct (startsWith _ _); [|reflexivity].
  destruct (operation operationNode); now destruct H.
Qed.

Lemma operation_rules_report_only_resolved_witness :
  let operationNode :=
    operationOn query {| value := "GetUser"; range := Some (6, 13) |} "users" in
  exists n first rest fieldNode rootType field t typeName,
    operationName operationNode = Some n
    /\ selectionSet operationNode = Some {| selections := Some (first :: rest) |}
    /\ selectionName first = Some fieldNode
    /\ rootTypeOf mockSchema (operation operationNode) = Some rootType
    /\ getFields rootType !! value fieldNode = Some field
    /\ type field = Some t
    /\ name (unwrapLoop t) = Some typeName
    /\ typeName <> ""
    /\ ~ beginsWith (value n) (expectedNameIn userCardContext typeName).
Proof.
  cbv zeta.
  apply (operation_rules_report_only_resolved userCardContext mockSchema
           (operationOn query {| value := "GetUser"; range := Some (6, 13) |} "users")
           []).
  left. vm_compute. discriminate.
Defined.

Lemma resolvedTypeName_rename (schemaObject : GraphQLSchema)
    (operationNode : OperationDefinitionNode) (text : string) :
  resolvedTypeName schemaObject (renameOperation operationNode text)
  = resolvedTypeName schemaObject operationNode.
Proof. reflexivity. Qed.

(** The fix of a report cures what was reported: with the name replaced
    by the text of the fix, followed by any suffix, the rule that made the
    report accepts the same construct in the same file. *)
Theorem fix_is_accepted (context : Context) (schemaObject : GraphQLSchema)
    (log log' : list Descriptor) (d : Descriptor) (fx : Fix) (suffix : string) :
  autofix d = Some fx ->
  (forall fragment,
      fragmentListener context fragment log = Normal (log ++ [d]) ->
      fragmentListener context (renameFragment fragment (fixText fx +:+ suffix)) log'
      = Normal log')
  /\ (forall operationNode,
        operationListener context schemaObject operationNode log
        = Normal (log ++ [d]) ->
        operationListener context schemaObject
          (renameOperation operationNode (fixText fx +:+ suffix)) log'
        = Normal log')
  /\ (forall operationNode,
        mutationListener context schemaObject operationNode log
        = Normal (log ++ [d]) ->
        mutationListener context schemaObject
          (renameOperation operationNode (fixText fx +:+ suffix)) log'
        = Normal log').
Proof.
  intros Hfix.
  assert (Hsame : forall (l : list Descriptor), Normal l = Normal (l ++ [d]) -> False).
  { intros l [= H]. symmetry in H. now apply app_one_neq in H. }
  assert (Htext : forall n expected messageText,
             Normal (log ++ [violation n expected messageText])
             = Normal (log ++ [d]) ->
             fixText fx = expected).
  { intros n expected messageText [= H]. apply app_inv_head in H.
    injection H as <-. cbn [violation autofix] in Hfix. unfold renameFix in Hfix.
    destruct (range n) as [[first last]|]; [|discriminate].
    now injection Hfix as <-. }
  split; [|split].
  - intros fragment. rewrite !fragmentListener_cases.
    destruct fragment as [[n|] [c|]]; cbn [fragmentName typeCondition renameFragment
                                            option_map];
      try (intros H; now apply Hsame in H).
    cbv zeta. destruct (startsWith (value n) _);
      [intros H; now apply Hsame in H|].
    intros H. apply Htext in H. cbn [renameNode value]. rewrite H.
    now rewrite startsWith_append.
  - intros operationNode. rewrite !operationListener_cases, resolvedTypeName_rename.
    destruct operationNode as [[n|] kind sels];
      cbn [operationName operation renameOperation option_map];
      [|intros H; now apply Hsame in H].
    destruct kind; try destruct (resolvedTypeName _ _) as [typeName|];
      try (intros H; now apply Hsame in H);
      (destruct (startsWith (value n) _); [intros H; now apply Hsame in H|];
       intros H; apply Htext in H; cbn [renameNode value]; rewrite H;
       now rewrite startsWith_append).
  - intros operationNode. rewrite !mutationListener_cases, resolvedTypeName_rename.
    destruct operationNode as [[n|] kind sels];
      cbn [operationName operation renameOperation option_map];
      [|intros H; now apply Hsame in H].
    destruct kind; try destruct (resolvedTypeName _ _) as [typeName|];
      try (intros H; now apply Hsame in H);
      (destruct (startsWith (value n) _); [intros H; now apply Hsame in H|];
       intros H; apply Htext in H; cbn [renameNode value]; rewrite H;
       now rewrite startsWith_append).
Qed.

Lemma fix_is_accepted_witness :
  fragmentListener userCardContext
    (renameFragment (fragmentNamed {| value := "UserCard"; range := Some (9, 17) |})
       ("UsersUser" +:+ "Card")) []
  = Normal [].
Proof.
  refine (proj1 (fix_is_accepted userCardContext mockSchema [] []
                   (violation {| value := "UserCard"; range := Some (9, 17) |}
                      "UsersUser" (createFragmentMessage "UsersUser"))
                   {| fixRange := (9, 17); fixText := "UsersUser" |} "Card" eq_refl)
            (fragmentNamed {| value := "UserCard"; range := Some (9, 17) |}) _).
  reflexivity.
Defined.

(** ** [toPascalCase] on words *)

Lemma join_cons (sep w : string) (ws : list string) :
  join sep (w :: ws) = w +:+ concatAll (map (fun x => sep +:+ x) ws).
Proof.
  revert w. induction ws as [|v ws IH]; intros w.
  - cbn [join map concatAll]. now rewrite append_empty_r.
  - change (join sep (w :: v :: ws)) with (w +:+ sep +:+ join sep (v :: ws)).
    rewrite IH. cbn [map concatAll]. now rewrite !append_assoc.
Qed.

Lemma removeChars_append (p : ascii -> bool) (a b : string) :
  removeChars p (a +:+ b) = removeChars p a +:+ removeChars p b.
Proof.
  induction a as [|c a IH]; [reflexivity|].
  rewrite append_cons. cbn [removeChars]. destruct (p c); [exact IH|].
  now rewrite append_cons, IH.
Qed.

Lemma mapChars_append (f : ascii -> ascii) (a b : string) :
  mapChars f (a +:+ b) = mapChars f a +:+ mapChars f b.
Proof.
  induction a as [|c a IH]; [reflexivity|].
  rewrite !append_cons. cbn [mapChars]. now rewrite append_cons, IH.
Qed.

Lemma isCompact_cons (c : ascii) (w : string) :
  isCompact (String c w) = true -> isSeparator c = false /\ isCompact w = true.
Proof.
  unfold isCompact. cbn [allChars]. rewrite andb_true_iff, negb_true_iff. tauto.
Qed.

Lemma isCompact_no_bracket (w : string) :
  isCompact w = true -> removeChars isBracket w = w.
Proof.
  intros H. apply removeChars_none. revert H. apply allChars_impl.
  intros c. rewrite !negb_true_iff. apply isSeparator_bracket.
Qed.

Lemma isCompact_no_hyphen (w : string) :
  isCompact w = true ->
  mapChars (fun c => if isHyphenOrUnderscore c then " "%char else c) w = w.
Proof.
  intros H. apply (mapChars_fixed _ (fun c => negb (isSeparator c))); [|exact H].
  intros c. rewrite negb_true_iff. intros Hc. now rewrite (isSeparator_hyphen c Hc).
Qed.

(** The bracket removal and the hyphen replacement, on words joined by a
    hyphen, an underscore or a space: the words, each after a space. *)
Lemma cleaned_words (sep : ascii) (ws : list string) :
  In sep ["-"; "_"; " "]%char ->
  Forall (fun w => isCompact w = true) ws ->
  mapChars (fun c => if isHyphenOrUnderscore c then " "%char else c)
    (removeChars isBracket
       (concatAll (map (fun x => String sep "" +:+ x) ws)))
  = concatAll (map (fun x => " " +:+ x) ws).
Proof.
  intros Hsep Hws. induction Hws as [|w ws Hw _ IH]; [reflexivity|].
  cbn [map concatAll]. rewrite !removeChars_append, !mapChars_append, IH.
  rewrite (isCompact_no_bracket w Hw), (isCompact_no_hyphen w Hw).
  f_equal. f_equal.
  cbn [In] in Hsep. now destruct Hsep as [<- | [<- | [<- | []]]].
Qed.

Lemma upperChar_not_word (c : ascii) : isWord c = false -> upperChar c = c.
Proof. ascii_cases c. Qed.

Lemma scan_word (w rest : string) :
  isCompact w = true ->
  removeChars isSpace (capitalizeWords false (w +:+ rest))
  = w +:+ removeChars isSpace (capitalizeWords false rest).
Proof.
  induction w as [|c w IH]; intros Hw; [reflexivity|].
  apply isCompact_cons in Hw as [Hc Hw].
  rewrite !append_cons, capitalizeWords_cons. cbn [andb].
  rewrite (isSeparator_space c Hc). cbn [removeChars].
  now rewrite (isSeparator_space c Hc), (IH Hw).
Qed.

Lemma scan_first_word (w rest : string) :
  isCompact w = true ->
  rest = "" \/ (exists r, rest = String " " r) ->
  removeChars isSpace (capitalizeWords true (w +:+ rest))
  = capitalizeFirst w +:+ removeChars isSpace (capitalizeWords false rest).
Proof.
  intros Hw Hrest. destruct w as [|c w].
  - rewrite !append_nil. destruct Hrest as [-> | [r ->]]; reflexivity.
  - apply isCompact_cons in Hw as [Hc Hw].
    rewrite append_cons, capitalizeWords_cons. cbn [andb capitalizeFirst].
    destruct (isWord c) eqn:Hword.
    + cbn [removeChars]. rewrite isSpace_upperChar, (isSeparator_space c Hc).
      now rewrite (scan_word w rest Hw), append_cons.
    + rewrite (isSeparator_space c Hc). cbn [removeChars].
      rewrite (isSeparator_space c Hc), (scan_word w rest Hw).
      now rewrite (upperChar_not_word c Hword), append_cons.
Qed.

Lemma scan_next_word (w rest : string) :
  isCompact w = true ->
  rest = "" \/ (exists r, rest = String " " r) ->
  removeChars isSpace (capitalizeWords false (" " +:+ w +:+ rest))
  = capitalizeFirst w +:+ removeChars isSpace (capitalizeWords false rest).
Proof.
  intros Hw Hrest. destruct w as [|c w].
  - rewrite !append_nil. change (" " +:+ rest) with (String " " rest).
    destruct Hrest as [-> | [r ->]]; reflexivity.
  - apply isCompact_cons in Hw as [Hc Hw].
    change (" " +:+ String c w +:+ rest) with (String " " (String c (w +:+ rest))).
    rewrite capitalizeWords_cons. cbn [andb capitalizeFirst].
    change (isSpace " ") with true. cbv iota.
    destruct (isWord c) eqn:Hword.
    + cbn [removeChars]. rewrite isSpace_upperChar, (isSeparator_space c Hc).
      now rewrite (scan_word w rest Hw), append_cons.
    + cbn [removeChars]. change (isSpace " ") with true. cbv iota.
      rewrite <- append_cons, (scan_word (String c w) rest).
      * now rewrite (upperChar_not_word c Hword).
      * unfold isCompact. cbn [allChars]. now rewrite Hc.
Qed.

Lemma spaced_words_boundary (ws : list string) :
  concatAll (map (fun x => " " +:+ x) ws) = ""
  \/ exists r, concatAll (map (fun x => " " +:+ x) ws) = String " " r.
Proof.
  destruct ws as [|w ws]; [now left|]. right. cbn [map concatAll].
  eexists. now rewrite append_assoc.
Qed.

Lemma scan_words (ws : list string) :
  Forall (fun w => isCompact w = true) ws ->
  removeChars isSpace
    (capitalizeWords false (concatAll (map (fun x => " " +:+ x) ws)))
  = concatAll (map capitalizeFirst ws).
Proof.
  induction 1 as [|w ws Hw _ IH]; [reflexivity|].
  cbn [map concatAll]. rewrite append_assoc.
  rewrite (scan_next_word w _ Hw (spaced_words_boundary ws)). now rewrite IH.
Qed.

Lemma isCapitalized_words (ws : list string) :
  isCapitalized (concatAll (map capitalizeFirst ws)) = true.
Proof.
  induction ws as [|w ws IH]; [reflexivity|].
  cbn [map concatAll]. apply isCapitalized_append; [|exact IH].
  destruct w; [reflexivity|]. cbn. now rewrite isLower_upperChar.
Qed.

Lemma replaceFirstChar_capitalized (s : string) :
  isCapitalized s = true -> replaceFirstChar upperChar s = s.
Proof.
  destruct s as [|c r]; [reflexivity|]. cbn [isCapitalized replaceFirstChar].
  rewrite negb_true_iff. intros Hc. rewrite (upperChar_not_lower c Hc).
  now destruct (isLineTerminator c).
Qed.

(** Kebab case, snake case and spaced words: on words of ASCII code units
    without separators, joined by hyphens, by underscores or by spaces,
    [toPascalCase] gives the words one after the other, each with its
    first code unit in upper case and the rest as it was. *)
Theorem toPascalCase_joined_words (sep : ascii) (words : list string) :
  In sep ["-"; "_"; " "]%char ->
  Forall (fun w => isAsciiString w = true) words ->
  Forall (fun w => isCompact w = true) words ->
  toPascalCase (join (String sep "") words) = concatAll (map capitalizeFirst words).
Proof.
  intros Hsep _ Hwords. destruct Hwords as [|w ws Hw Hws]; [reflexivity|].
  rewrite join_cons. unfold toPascalCase.
  rewrite removeChars_append, mapChars_append, (cleaned_words sep ws Hsep Hws).
  rewrite (isCompact_no_bracket w Hw), (isCompact_no_hyphen w Hw).
  rewrite (scan_first_word w _ Hw (spaced_words_boundary ws)).
  rewrite (scan_words ws Hws).
  apply (replaceFirstChar_capitalized (concatAll (map capitalizeFirst (w :: ws)))).
  apply isCapitalized_words.
Qed.

Lemma toPascalCase_joined_words_witness :
  toPascalCase "user-Profile-card" = "UserProfileCard".
Proof.
  apply (toPascalCase_joined_words "-" ["user"; "Profile"; "card"]).
  - cbn. tauto.
  - repeat constructor.
  - repeat constructor.
Defined.

(** ** More on the prefix and on the type name *)

(** Without an overlap, and with a directory candidate outside
    [DEFAULT_SKIP_DIRS] (case folded), the type name changes nothing:
    [calculatePrefixWithTypeName] returns what [calculatePrefix] returns.
    With an overlap the file candidate is dropped: the result is empty or
    the normalized directory. *)
Theorem calculatePrefixWithTypeName_and_calculatePrefix (p typeName : string)
    (options : PathOptions) :
  (hasSignificantOverlap typeName (fileName (extractPathInfo p options)) = false ->
   arrayIncludes DEFAULT_SKIP_DIRS (toLowerCase (dirName (extractPathInfo p options)))
   = false ->
   calculatePrefixWithTypeName p typeName options = calculatePrefix p options)
  /\ (hasSignificantOverlap typeName (fileName (extractPathInfo p options)) = true ->
      calculatePrefixWithTypeName p typeName options = ""
      \/ calculatePrefixWithTypeName p typeName options
         = toPascalCase (dirName (extractPathInfo p options))).
Proof.
  rewrite calculatePrefixWithTypeName_cases. unfold calculatePrefix. cbv zeta.
  split.
  - intros -> ->. rewrite andb_true_r.
    destruct (_ =? _)%string; [reflexivity|].
    unfold truthy.
    destruct (String.eqb_spec (toPascalCase (dirName (extractPathInfo p options))) "")
      as [-> | _]; reflexivity.
  - intros ->. destruct (_ =? _)%string; [now left|].
    destruct (andb _ _); [now right | now left].
Qed.

Lemma calculatePrefixWithTypeName_and_calculatePrefix_witness :
  calculatePrefixWithTypeName "/path/to/features/users/components/UserCard.vue"
    "Order" noOptions
  = calculatePrefix "/path/to/features/users/components/UserCard.vue" noOptions.
Proof.
  apply (proj1 (calculatePrefixWithTypeName_and_calculatePrefix
                  "/path/to/features/users/components/UserCard.vue" "Order"
                  noOptions)); reflexivity.
Defined.

(** Only the first letter of the type name is touched, and only its case:
    capitalizing twice is capitalizing once, and two type names that
    differ by the case of their first letter have the same expected name
    and make the same names valid. *)
Theorem capitalizeTypeName_first_letter (prefix actualName rest : string)
    (c c' : ascii) :
  capitalizeTypeName (capitalizeTypeName (String c rest))
  = capitalizeTypeName (String c rest)
  /\ capitalizeTypeName (String c rest) = String (upperChar c) rest
  /\ (upperChar c = upperChar c' ->
      generateExpectedName prefix (String c rest)
      = generateExpectedName prefix (String c' rest)
      /\ isValidName actualName prefix (String c rest)
         = isValidName actualName prefix (String c' rest)).
Proof.
  unfold isValidName, generateExpectedName. rewrite !capitalizeTypeName_spec.
  rewrite upperChar_idem. split; [reflexivity | split; [reflexivity|]].
  now intros ->.
Qed.

Lemma capitalizeTypeName_first_letter_witness :
  generateExpectedName "Users" "user" = generateExpectedName "Users" "User"
  /\ isValidName "UsersUserCard" "Users" "user"
     = isValidName "UsersUserCard" "Users" "User".
Proof.
  apply (proj2 (proj2 (capitalizeTypeName_first_letter "Users" "UsersUserCard" "ser"
                         "u" "U"))).
  reflexivity.
Defined.

Lemma unwrapLoop_wrapped (names : list (option string)) (t : GraphQLType) :
  unwrapLoop (wrapped names t) = unwrapLoop t.
Proof. induction names as [|n names IH]; [reflexivity | exact IH]. Qed.

(** Wrappers do not count: for a field whose declared type is a named
    type under any number of list and non-null wrappers, whatever the
    wrappers carry as names, [getOperationTypeName] returns the name of
    the named type. *)
Theorem getOperationTypeName_ignores_wrappers (schema : GraphQLSchema)
    (operationType : OperationType) (rootType : GraphQLObjectType)
    (firstFieldName : string) (names : list (option string))
    (typeName : option string) :
  rootTypeOf schema operationType = Some rootType ->
  getFields rootType !! firstFieldName
  = Some {| type := Some (wrapped names (MkType typeName None)) |} ->
  getOperationTypeName schema operationType firstFieldName = Normal typeName.
Proof.
  intros Hroot Hfield. rewrite getOperationTypeName_cases, Hroot, Hfield.
  cbn [type]. now rewrite unwrapLoop_wrapped.
Qed.

Lemma getOperationTypeName_ignores_wrappers_witness :
  getOperationTypeName mockSchema query "users" = Normal (Some "User").
Proof.
  apply (getOperationTypeName_ignores_wrappers mockSchema query
           {| getFields :=
                <["user" := {| type := Some (MkType (Some "User") None) |}]>
                  (<["users" :=
                       {| type := Some (MkType None
                                          (Some (MkType (Some "User") None))) |}]>
                     (<["post" := {| type := Some (MkType (Some "Post") None) |}]>
                        ∅)) |}
           "users" [None] (Some "User")); reflexivity.
Defined.
